(** * PlotHg: the Timoshenko beam payload and the resolution engine it feeds

    Shallow embedding of [beam_model.py], [beam_simulation.py] and
    [BeamSimulationGUI.run_simulation] of [beam_gui.py].

    The relation functions of [beam_model.py] are duck-typed Python
    arithmetic: they run unchanged on [int], [float] and
    [fractions.Fraction].  They are embedded once, over a class of Python
    numbers, and instantiated twice: at [Q] (exact arithmetic, what the
    functions compute on [Fraction] arguments and what the equations mean)
    and at binary64 [float] (what the GUI and the simulation script feed
    them). *)

From Stdlib Require Import ZArith QArith Qabs Lqa Lia Floats Ascii String.
From stdpp Require Import gmap strings list.

Local Open Scope string_scope.
Local Open Scope list_scope.

Set Warnings "-inexact-float".

(** ** Python exceptions and results *)

Inductive PyError : Type :=
| ZeroDivisionError
| OverflowError
| TypeError
| LinAlgError
| DuplicateNodeError (label : string)
| UnknownNodeError (label : string)
| ArityMismatchError (label : string)
| CycleDetectedError (node : string)
| DepthExceededError (node : string)
| UnresolvedNodeError (node : string).

Inductive result (A : Type) : Type :=
| Ok (a : A)
| Raise (e : PyError).
Arguments Ok {A} a.
Arguments Raise {A} e.

Definition bind {A B : Type} (r : result A) (f : A -> result B) : result B :=
  match r with
  | Ok a => f a
  | Raise e => Raise e
  end.

Declare Scope py_scope.
Delimit Scope py_scope with py.
Notation "'let*' x := r 'in' k" := (bind r (fun x => k))
  (at level 10, x name, r at level 200, k at level 200) : py_scope.

(** ** Python numbers

    The operators the relation functions use.  [truediv] is [/], which
    raises [ZeroDivisionError] on a zero divisor; [pow] is [x**n] for an
    integer literal [n], which on floats raises [OverflowError] instead of
    returning an infinity. *)

Class PyNumber (T : Type) : Type := {
  of_int : Z -> T;
  add : T -> T -> T;
  sub : T -> T -> T;
  mul : T -> T -> T;
  neg : T -> T;
  truediv : T -> T -> result T;
  pow : T -> positive -> result T;
  eq0 : T -> bool;
  gt0 : T -> bool;
  isfinite : T -> bool
}.

Notation "x + y" := (add x y) : py_scope.
Notation "x - y" := (sub x y) : py_scope.
Notation "x * y" := (mul x y) : py_scope.
Notation "- x" := (neg x) : py_scope.
Notation "x / y" := (truediv x y) : py_scope.
Notation "x ** n" := (pow x n) (at level 30, right associativity) : py_scope.

(** Exact rationals: Python's [Fraction], and every finite float read as
    the rational it denotes. *)
#[export] Instance Q_number : PyNumber Q := {
  of_int := inject_Z;
  add := Qplus;
  sub := Qminus;
  mul := Qmult;
  neg := Qopp;
  truediv x y := if Qeq_bool y 0 then Raise ZeroDivisionError else Ok (Qdiv x y);
  pow x n := Ok (Qpower_positive x n);
  eq0 x := Qeq_bool x 0;
  gt0 x := negb (Qle_bool x 0);
  isfinite _ := true
}.

(** IEEE 754 binary64: Python's [float].  [x**n] is C's [pow(x, n)],
    taken as correctly rounded: the power of a finite float [m * 2^e] is
    [m^n * 2^(n*e)] rounded to the nearest float, ties to even, and an
    overflow is an [OverflowError]; zeros, infinities and NaN are as under
    multiplication. *)
Definition float_of_int (z : Z) : float :=
  match z with
  | Z0 => PrimFloat.zero
  | Zpos p => PrimFloat.of_uint63 (Uint63.of_Z (Zpos p))
  | Zneg p => PrimFloat.opp (PrimFloat.of_uint63 (Uint63.of_Z (Zpos p)))
  end.

Definition float_isfinite (x : float) : bool :=
  negb (PrimFloat.is_nan x || PrimFloat.is_infinity x).

Definition float_pow (x : float) (n : positive) : result float :=
  match Prim2SF x with
  | S754_finite s m e =>
      let r := SF2Prim (binary_round prec emax (s && Z.odd (Zpos n))
                          (Pos.pow m n) (Z.mul (Zpos n) e)) in
      if PrimFloat.is_infinity r then Raise OverflowError else Ok r
  | _ => Ok (Pos.iter_op PrimFloat.mul n x)
  end.

#[export] Instance float_number : PyNumber float := {
  of_int := float_of_int;
  add := PrimFloat.add;
  sub := PrimFloat.sub;
  mul := PrimFloat.mul;
  neg := PrimFloat.opp;
  truediv x y :=
    if PrimFloat.eqb y PrimFloat.zero then Raise ZeroDivisionError
    else Ok (PrimFloat.div x y);
  pow := float_pow;
  eq0 x := PrimFloat.eqb x PrimFloat.zero;
  gt0 x := PrimFloat.ltb PrimFloat.zero x;
  isfinite := float_isfinite
}.

(** The numerical routines the module calls and does not define.
    [np.roots] gives the roots of the polynomial with the given
    coefficients (highest degree first) as an array of complex numbers
    [(re, im)], or raises: [numpy.linalg.LinAlgError] when a coefficient
    is an infinity or a NaN.  It is the only one a registered relation
    calls. *)
Class NumPy (T : Type) : Type := np_roots : list T -> result (list (T * T)).

(** What the length inverse returns: an element of the array of
    [np.roots], a NumPy scalar given by its real and imaginary parts (a
    [complex128], or a [float64] when every root listed is real), or the
    plain [0] of its [else] branch. *)
Inductive Scalar (T : Type) : Type :=
| Element (z : T * T)
| Number (x : T).
Arguments Element {T} z.
Arguments Number {T} x.

(** [np.pi], [np.sqrt] and [x ** y] at a fractional exponent, which only
    the material and geometry helpers use. *)
Class Irrational (T : Type) : Type := {
  np_pi : T;
  np_sqrt : T -> T;
  pow_frac : T -> T -> T
}.

(** ** Relation functions of [create_beam_model] *)

Section Timoshenko.
Context {T : Type} `{PyNumber T} `{NumPy T} `{Irrational T}.
Local Open Scope py_scope.

Definition three : T := of_int 3.
Definition two : T := of_int 2.
Definition four : T := of_int 4.
Definition one : T := of_int 1.

(** *** E, V, G helpers *)

Definition shear_modulus_from_elastic_poisson (E V : T) : result T :=
  E / (two * (one + V)).

Definition elastic_modulus_from_shear_poisson (G V : T) : result T :=
  Ok (two * G * (one + V)).

Definition poisson_from_elastic_shear (E G : T) : result T :=
  let* q := E / (two * G) in
  Ok (q - one).

(** *** R, I, A helpers *)

Definition area_from_radius (radius : T) : result T :=
  let* r2 := radius ** 2 in
  Ok (np_pi * r2).

Definition radius_from_area (A : T) : result T :=
  let* q := A / np_pi in
  Ok (np_sqrt q).

Definition moment_of_inertia_from_radius (radius : T) : result T :=
  let* c := np_pi / four in
  let* r4 := radius ** 4 in
  Ok (c * r4).

Definition radius_from_moment_of_inertia (I : T) : result T :=
  let* q := (four * I) / np_pi in
  let* e := one / four in
  Ok (pow_frac q e).

Definition moment_of_inertia_from_area (A : T) : result T :=
  let* a2 := A ** 2 in
  a2 / (four * np_pi).

Definition area_from_moment_of_inertia (I : T) : result T :=
  Ok (np_sqrt (four * np_pi * I)).

(** *** Timoshenko relations *)

Definition timoshenko_beam_deflection (P E I L k G A : T) : result T :=
  let* L3 := L ** 3 in
  let* delta_bending := (P * L3) / (three * E * I) in
  let* delta_shear := (P * L) / (k * G * A) in
  Ok (delta_bending + delta_shear).

Definition solve_for_P_from_timoshenko (theta E I L k G A : T) : result T :=
  let* L3 := L ** 3 in
  let* b := L3 / (three * E * I) in
  let* s := L / (k * G * A) in
  theta / (b + s).

Definition solve_for_E_from_timoshenko (theta P I L k G A : T) : result T :=
  let* L3 := L ** 3 in
  let* s := (P * L) / (k * G * A) in
  (P * L3) / (three * I * (theta - s)).

Definition solve_for_I_from_timoshenko (theta P E L k G A : T) : result T :=
  let* L3 := L ** 3 in
  let* s := (P * L) / (k * G * A) in
  (P * L3) / (three * E * (theta - s)).

Definition isreal (z : T * T) : bool := eq0 (snd z).

(** [roots > 0] on a complex array: NumPy orders complex numbers
    lexicographically. *)
Definition complex_gt0 (z : T * T) : bool :=
  gt0 (fst z) || (eq0 (fst z) && gt0 (snd z)).

Definition real_positive (z : T * T) : bool := isreal z && complex_gt0 z.

Definition solve_for_L_from_timoshenko (theta P E I k G A : T)
    : result (Scalar T) :=
  let* c3 := P / (three * E * I) in
  let* c1 := P / (k * G * A) in
  let coeffs := [c3; of_int 0; c1; - theta] in
  let* roots := np_roots coeffs in
  let real_positive_roots := filter (fun z => real_positive z = true) roots in
  match real_positive_roots with
  | z :: _ => Ok (Element z)
  | [] => Ok (Number (of_int 0))
  end.

Definition solve_for_k_from_timoshenko (theta P E I L G A : T) : result T :=
  let* L3 := L ** 3 in
  let* b := (P * L3) / (three * E * I) in
  (P * L) / (G * A * (theta - b)).

Definition solve_for_G_from_timoshenko (theta P E I L k A : T) : result T :=
  let* L3 := L ** 3 in
  let* b := (P * L3) / (three * E * I) in
  (P * L) / (k * A * (theta - b)).

Definition solve_for_A_from_timoshenko (theta P E I L k G : T) : result T :=
  let* L3 := L ** 3 in
  let* b := (P * L3) / (three * E * I) in
  (P * L) / (k * G * (theta - b)).

End Timoshenko.

(** ** The hypergraph model

    [constrainthg.hypergraph] is imported by the repository and not part of
    it; nodes, relations and the model follow the specification (sections
    3 and 4.1).  A node is identified by its label. *)

Section Hypergraph.
Context {T : Type} `{PyNumber T} `{NumPy T}.
Local Open Scope py_scope.

(** A Python function of [n] positional numeric parameters. *)
Fixpoint nary (n : nat) : Type :=
  match n with
  | O => result T
  | S n' => T -> nary n'
  end.

Record PyFunction : Type := def {
  arity : nat;
  body : nary arity
}.

(** Calling a function on a list of arguments: a call with the wrong
    number of arguments is a [TypeError]. *)
Fixpoint call_nary (n : nat) : nary n -> list T -> result T :=
  match n with
  | O => fun f args =>
      match args with
      | [] => f
      | _ :: _ => Raise TypeError
      end
  | S n' => fun f args =>
      match args with
      | [] => Raise TypeError
      | a :: args' => call_nary n' (f a) args'
      end
  end.

Definition call (fn : PyFunction) (args : list T) : result T :=
  call_nary (arity fn) (body fn) args.

(** Modelled from the spec: the Relation of section 3, an ordered list of
    input nodes, one output node, an evaluation function and a label. *)
Record Relation : Type := {
  rel_inputs : list string;
  rel_output : string;
  rel_fn : PyFunction;
  rel_label : string
}.

(** Modelled from the spec: the Model of section 3, the registered nodes
    and the registered relations, both in registration order. *)
Record Hypergraph : Type := {
  nodes : list string;
  relations : list Relation
}.

Definition empty_hypergraph : Hypergraph := {| nodes := []; relations := [] |}.

(** Modelled from the spec: [add_node] of section 4.1. *)
Definition add_node (label : string) (hg : Hypergraph) : result Hypergraph :=
  if bool_decide (label ∈ nodes hg) then Raise (DuplicateNodeError label)
  else Ok {| nodes := nodes hg ++ [label]; relations := relations hg |}.

(** Modelled from the spec: [add_relation] of section 4.1, which the
    source calls [add_edge]. *)
Definition add_edge (inputs : list string) (output : string)
    (fn : PyFunction) (label : string) (hg : Hypergraph) : result Hypergraph :=
  if negb (length inputs =? arity fn)%nat then Raise (ArityMismatchError label)
  else
    match filter (fun n => n ∉ nodes hg) (inputs ++ [output]) with
    | n :: _ => Raise (UnknownNodeError n)
    | [] =>
        Ok {| nodes := nodes hg;
              relations := relations hg ++
                [ {| rel_inputs := inputs; rel_output := output;
                     rel_fn := fn; rel_label := label |} ] |}
    end.

(** Modelled from the spec: [relations_for] of section 4.1. *)
Definition relations_for (hg : Hypergraph) (node : string) : list Relation :=
  filter (fun r => rel_output r = node) (relations hg).

(** Modelled from the spec: a node holds a number (section 3).  What a
    relation function returns is held as the number it denotes, an element
    of a NumPy array as its real part. *)
Definition stored (v : Scalar T) : T :=
  match v with
  | Element z => fst z
  | Number x => x
  end.

(** *** [create_beam_model] *)

Definition create_beam_model : result Hypergraph :=
  let hg := empty_hypergraph in
  let P := "point load" in
  let k := "kappa" in
  let E := "youngs modulus" in
  let I := "moment of inertia" in
  let G := "shear modulus" in
  let A := "area" in
  let L := "length" in
  let theta := "theta" in
  let* hg := add_node P hg in
  let* hg := add_node k hg in
  let* hg := add_node E hg in
  let* hg := add_node I hg in
  let* hg := add_node G hg in
  let* hg := add_node A hg in
  let* hg := add_node L hg in
  let* hg := add_node theta hg in
  let* hg := add_edge [P; E; I; L; k; G; A] theta
               (def 7 timoshenko_beam_deflection) "Timoshenko" hg in
  let* hg := add_edge [theta; E; I; L; k; G; A] P
               (def 7 solve_for_P_from_timoshenko) "Timoshenko->P" hg in
  let* hg := add_edge [theta; P; I; L; k; G; A] E
               (def 7 solve_for_E_from_timoshenko) "Timoshenko->E" hg in
  let* hg := add_edge [theta; P; E; L; k; G; A] I
               (def 7 solve_for_I_from_timoshenko) "Timoshenko->I" hg in
  let* hg := add_edge [theta; P; E; I; k; G; A] L
               (def 7 (fun theta P E I k G A =>
                         let* v := solve_for_L_from_timoshenko theta P E I k G A in
                         Ok (stored v))) "Timoshenko->L" hg in
  let* hg := add_edge [theta; P; E; I; L; G; A] k
               (def 7 solve_for_k_from_timoshenko) "Timoshenko->k" hg in
  let* hg := add_edge [theta; P; E; I; L; k; A] G
               (def 7 solve_for_G_from_timoshenko) "Timoshenko->G" hg in
  let* hg := add_edge [theta; P; E; I; L; k; G] A
               (def 7 solve_for_A_from_timoshenko) "Timoshenko->A" hg in
  Ok hg.

(** The model [create_beam_model] returns. *)
Definition beam_nodes : list string :=
  ["point load"; "kappa"; "youngs modulus"; "moment of inertia";
   "shear modulus"; "area"; "length"; "theta"].

(** The material and geometry helpers, as the functions they are. *)
Context `{Irrational T}.

Definition helpers : list PyFunction :=
  [ def 2 shear_modulus_from_elastic_poisson;
    def 2 elastic_modulus_from_shear_poisson;
    def 2 poisson_from_elastic_shear;
    def 1 area_from_radius;
    def 1 radius_from_area;
    def 1 moment_of_inertia_from_radius;
    def 1 radius_from_moment_of_inertia;
    def 1 moment_of_inertia_from_area;
    def 1 area_from_moment_of_inertia ].

Definition timoshenko_labels : list string :=
  ["Timoshenko"; "Timoshenko->P"; "Timoshenko->E"; "Timoshenko->I";
   "Timoshenko->L"; "Timoshenko->k"; "Timoshenko->G"; "Timoshenko->A"].

(** The inputs and the output of the eight relations, in registration
    order. *)
Definition beam_signatures : list (list string * string) :=
  let P := "point load" in
  let k := "kappa" in
  let E := "youngs modulus" in
  let I := "moment of inertia" in
  let G := "shear modulus" in
  let A := "area" in
  let L := "length" in
  let theta := "theta" in
  [ ([P; E; I; L; k; G; A], theta);
    ([theta; E; I; L; k; G; A], P);
    ([theta; P; I; L; k; G; A], E);
    ([theta; P; E; L; k; G; A], I);
    ([theta; P; E; I; k; G; A], L);
    ([theta; P; E; I; L; G; A], k);
    ([theta; P; E; I; L; k; A], G);
    ([theta; P; E; I; L; k; G], A) ].

(** A relation that reads every registered node but the one it
    produces. *)
Definition reads_all_others (sig : list string * string) : Prop :=
  sig.2 ∈ beam_nodes /\
  Forall (fun x => x = sig.2 \/ x ∈ sig.1) beam_nodes.

Definition beam_model : Hypergraph :=
  match create_beam_model with
  | Ok hg => hg
  | Raise _ => empty_hypergraph
  end.

End Hypergraph.

Arguments nary T n : clear implicits.
Arguments PyFunction T : clear implicits.
Arguments Relation T : clear implicits.
Arguments Hypergraph T : clear implicits.

(** ** The resolver

    Modelled from the spec: the depth-bounded, first-success resolution of
    section 4.2; the engine that [plot_simulation] drives is not in the
    repository. *)

Section Resolver.
Context {T : Type} `{PyNumber T}.

(** One step of a derivation trace (section 6): the relation used, its
    inputs with their resolved values, its output and the value. *)
Record Step : Type := {
  step_relation : string;
  step_inputs : list (string * T);
  step_output : string;
  step_value : T
}.

(** The resolution session (section 3): resolved values, seeded with the
    knowns, and the provenance of every computed node.  The set of nodes
    being resolved is kept per search branch (section 9) and is an
    argument of [resolve_node]. *)
Record Session : Type := {
  values : gmap string T;
  provenance : gmap string Step
}.

Definition new_session (knowns : gmap string T) : Session :=
  {| values := knowns; provenance := ∅ |}.

Definition record_step (r : Relation T) (args : list T) (v : T) (s : Session)
    : Session :=
  {| values := <[rel_output r := v]> (values s);
     provenance :=
       <[rel_output r :=
           {| step_relation := rel_label r;
              step_inputs := zip (rel_inputs r) args;
              step_output := rel_output r;
              step_value := v |}]> (provenance s) |}.

(** Step 1d, first bullet: the inputs of a relation are resolved in their
    declared order; the first failure abandons the relation. *)
Fixpoint resolve_inputs (rec : Session -> string -> Session * result T)
    (s : Session) (inputs : list string) : Session * option (list T) :=
  match inputs with
  | [] => (s, Some [])
  | i :: inputs' =>
      match rec s i with
      | (s1, Ok v) =>
          match resolve_inputs rec s1 inputs' with
          | (s2, Some vs) => (s2, Some (v :: vs))
          | (s2, None) => (s2, None)
          end
      | (s1, Raise _) => (s1, None)
      end
  end.

(** Step 1d: the candidate relations are tried in registration order; a
    failed input, a domain error or a non-finite value moves on to the
    next candidate.  Step 1e: no candidate left. *)
Fixpoint try_relations (rec : Session -> string -> Session * result T)
    (n : string) (s : Session) (candidates : list (Relation T))
    : Session * result T :=
  match candidates with
  | [] => (s, Raise (UnresolvedNodeError n))
  | r :: candidates' =>
      match resolve_inputs rec s (rel_inputs r) with
      | (s1, Some args) =>
          match call (rel_fn r) args with
          | Ok v =>
              if isfinite v then (record_step r args v s1, Ok v)
              else try_relations rec n s1 candidates'
          | Raise _ => try_relations rec n s1 candidates'
          end
      | (s1, None) => try_relations rec n s1 candidates'
      end
  end.

(** Step 1: resolve node [n] at remaining depth [d]. *)
Fixpoint resolve_node (hg : Hypergraph T) (d : nat) (resolving : list string)
    (s : Session) (n : string) : Session * result T :=
  match values s !! n with
  | Some v => (s, Ok v)
  | None =>
      if bool_decide (n ∈ resolving) then (s, Raise (CycleDetectedError n))
      else
        match d with
        | O => (s, Raise (DepthExceededError n))
        | S d' =>
            try_relations (resolve_node hg d' (n :: resolving)) n s
              (relations_for hg n)
        end
  end.

(** Step 2: the provenance chain from a node back to the knowns. *)
Fixpoint trace_from (fuel : nat) (prov : gmap string Step) (n : string)
    : list Step :=
  match fuel with
  | O => []
  | S fuel' =>
      match prov !! n with
      | None => []
      | Some st =>
          st :: concat (map (trace_from fuel' prov) (map fst (step_inputs st)))
      end
  end.

(** The contract of section 4.2.  Every failure below the top-level
    target folds into [UnresolvedNodeError] (section 7). *)
Definition resolve (hg : Hypergraph T) (knowns : gmap string T)
    (target : string) (max_depth : nat) : result (T * list Step) :=
  match resolve_node hg max_depth [] (new_session knowns) target with
  | (s, Ok v) => Ok (v, trace_from max_depth (provenance s) target)
  | (_, Raise _) => Raise (UnresolvedNodeError target)
  end.

(** A step that some registered relation of the model accounts for. *)
Definition step_of (hg : Hypergraph T) (st : Step) : Prop :=
  exists r, r ∈ relations hg /\
            step_relation st = rel_label r /\
            step_output st = rel_output r /\
            map fst (step_inputs st) `prefix_of` rel_inputs r.

Definition provenance_in (hg : Hypergraph T) (s : Session) : Prop :=
  forall n st, provenance s !! n = Some st -> step_of hg st.

End Resolver.

Arguments Step T : clear implicits.
Arguments Session T : clear implicits.

(** ** [run_beam_simulation] *)

Section Simulation.
Context `{NumPy Q}.
Local Open Scope Q_scope.

Definition inputs : gmap string Q :=
  <["point load" := 1000]>
  (<["area" := 1e-4]>
  (<["shear modulus" := 80e9]>
  (<["kappa" := 5 / 6]>
  (<["length" := 2.0]>
  (<["moment of inertia" := 1e-6]>
  (<["youngs modulus" := 200e9]> ∅)))))).

Definition target_node : string := "theta".

Definition search_depth : nat := 1000.

(** Modelled from the spec: [plot_simulation] is not in the repository; it
    is taken to resolve the target from the inputs within the depth bound
    and to draw the outcome (section 6), and the drawing is left out. *)
Definition run_beam_simulation : result (Q * list (Step Q)) :=
  resolve beam_model inputs target_node search_depth.

End Simulation.

(** The same dictionary read as binary64 floats. *)
Definition inputs64 : gmap string float :=
  <["point load" := 1000%float]>
  (<["area" := 1e-4%float]>
  (<["shear modulus" := 80e9%float]>
  (<["kappa" := PrimFloat.div 5 6]>
  (<["length" := 2.0%float]>
  (<["moment of inertia" := 1e-6%float]>
  (<["youngs modulus" := 200e9%float]> ∅)))))).

(** The table of roots with no polynomial listed. *)
Definition empty_table64 : NumPy float := fun _ => Ok [].

(** ** [BeamSimulationGUI.run_simulation]

    Tk is reduced to what the method does with it: the texts of the entry
    fields, read through [float], and the calls it makes, recorded in
    order. *)

Section GUI.
Context {T : Type}.

(** [float(text)]: the number read, or [None] for a [ValueError]. *)
Variable float_of_text : string -> option T.

(** [plot_simulation(hg, PlotSettings(), inputs, target_node,
    search_depth=1000)]: [None] when it returns, the message of the
    exception when it raises. *)
Variable plot_simulation : gmap string T -> string -> nat -> option string.

Inductive Event : Type :=
| Showerror (title message : string)
| StatusConfig (text : string)
| RootUpdate
| CreateBeamModel
| PlotSimulation (inputs : gmap string T) (target : string) (search_depth : nat).

(** The keys of [self.variables], in insertion order. *)
Definition variables : list string :=
  ["point load"; "kappa"; "youngs modulus"; "moment of inertia";
   "shear modulus"; "area"; "length"; "theta"].

(** The loop that fills [inputs]: the variable whose text is not a number
    stops it. *)
Fixpoint get_inputs (input_vars : string -> string) (vars : list string)
    (inputs : gmap string T) : string + gmap string T :=
  match vars with
  | [] => inr inputs
  | var_name :: vars' =>
      if bool_decide (var_name <> "theta") then
        match float_of_text (input_vars var_name) with
        | Some value => get_inputs input_vars vars' (<[var_name := value]> inputs)
        | None => inl var_name
        end
      else get_inputs input_vars vars' inputs
  end.

Definition run_simulation (input_vars : string -> string) : list Event :=
  match get_inputs input_vars variables ∅ with
  | inl var_name => [Showerror "Error" ("Invalid number for " +:+ var_name)]
  | inr inputs =>
      [StatusConfig "Creating beam model..."; RootUpdate; CreateBeamModel;
       StatusConfig "Running simulation..."; RootUpdate;
       PlotSimulation inputs "theta" 1000] ++
      match plot_simulation inputs "theta" 1000 with
      | None => [StatusConfig "Beam simulation completed!"]
      | Some message =>
          [Showerror "Error" ("Simulation failed: " +:+ message);
           StatusConfig "Simulation failed"]
      end
  end.

Definition engine_event (ev : Event) : bool :=
  match ev with
  | CreateBeamModel | PlotSimulation _ _ _ => true
  | _ => false
  end.

End GUI.

Arguments Event T : clear implicits.

(** A reader of unsigned decimal integers, enough to tell "1000" from
    "abc". *)
Definition digit_of_ascii (c : ascii) : option Z :=
  let n := Z.of_nat (nat_of_ascii c) in
  if ((48 <=? n) && (n <=? 57))%Z then Some (n - 48)%Z else None.

Fixpoint read_digits (acc : Z) (text : string) : option Z :=
  match text with
  | EmptyString => Some acc
  | String c text' =>
      match digit_of_ascii c with
      | Some d => read_digits (10 * acc + d)%Z text'
      | None => None
      end
  end.

Definition read_unsigned (text : string) : option Q :=
  match text with
  | EmptyString => None
  | _ => option_map inject_Z (read_digits 0 text)
  end.

(** The form with "abc" typed into the area field. *)
Definition area_mistyped (var_name : string) : string :=
  if String.eqb var_name "area" then "abc" else "1000".

(** ** [ToggleSwitch]

    The canvas is reduced to the items it holds, in drawing order, and the
    callback to the list of the arguments it was called with. *)

Inductive CanvasItem : Type :=
| Polygon (points : list Z) (fill outline : string) (smooth : bool)
| Oval (x0 y0 x1 y1 : Z) (fill outline : string).

Record ToggleSwitch : Type := {
  command : bool;
  width : Z;
  height : Z;
  state : bool;
  canvas : list CanvasItem;
  called : list bool
}.

(** [self.create_rounded_rect(x1, y1, x2, y2, radius, **kwargs)]: the
    polygon through the twelve listed points, smoothed. *)
Definition rounded_rect_points (x1 y1 x2 y2 radius : Z) : list Z :=
  [ x1 + radius; y1;
    x2 - radius; y1;
    x2; y1;
    x2; y1 + radius;
    x2; y2 - radius;
    x2; y2;
    x2 - radius; y2;
    x1 + radius; y2;
    x1; y2;
    x1; y2 - radius;
    x1; y1 + radius;
    x1; y1 ]%Z.

Definition create_rounded_rect (x1 y1 x2 y2 radius : Z) (fill outline : string)
    (items : list CanvasItem) : list CanvasItem :=
  items ++ [Polygon (rounded_rect_points x1 y1 x2 y2 radius) fill outline true].

Definition create_oval (x0 y0 x1 y1 : Z) (fill outline : string)
    (items : list CanvasItem) : list CanvasItem :=
  items ++ [Oval x0 y0 x1 y1 fill outline].

Definition draw_switch (self : ToggleSwitch) : ToggleSwitch :=
  let items : list CanvasItem := [] in
  let track_color := if state self then "#4CAF50" else "#cccccc" in
  let items :=
    create_rounded_rect 2 2 (width self - 2) (height self - 2) 13
      track_color "" items in
  let circle_x := (if state self then width self - 15 else 15)%Z in
  let items :=
    create_oval (circle_x - 11) 4 (circle_x + 11) (height self - 4)
      "white" "" items in
  {| command := command self; width := width self; height := height self;
     state := state self; canvas := items; called := called self |}.

(** [ToggleSwitch(parent, width, height, command)]. *)
Definition new_switch (width height : Z) (command : bool) : ToggleSwitch :=
  draw_switch
    {| command := command; width := width; height := height;
       state := false; canvas := []; called := [] |}.

Definition toggle (self : ToggleSwitch) : ToggleSwitch :=
  let self :=
    draw_switch
      {| command := command self; width := width self; height := height self;
         state := negb (state self); canvas := canvas self;
         called := called self |} in
  if command self then
    {| command := command self; width := width self; height := height self;
       state := state self; canvas := canvas self;
       called := called self ++ [state self] |}
  else self.

Definition set_state (self : ToggleSwitch) (new_state : bool) : ToggleSwitch :=
  draw_switch
    {| command := command self; width := width self; height := height self;
       state := new_state; canvas := canvas self; called := called self |}.

Definition get_state (self : ToggleSwitch) : bool := state self.

(** What a user can do to a switch: click it (the binding of [<Button-1>]
    to [toggle]) or have the program set it. *)
Inductive SwitchAction : Type :=
| Click
| SetState (new_state : bool).

Definition act (self : ToggleSwitch) (a : SwitchAction) : ToggleSwitch :=
  match a with
  | Click => toggle self
  | SetState b => set_state self b
  end.

Definition perform (self : ToggleSwitch) (actions : list SwitchAction)
    : ToggleSwitch :=
  fold_left act actions self.

(** The horizontal and vertical extent of a canvas item. *)
Fixpoint xs_of (points : list Z) : list Z :=
  match points with
  | x :: _ :: rest => x :: xs_of rest
  | _ => []
  end.

Fixpoint ys_of (points : list Z) : list Z :=
  match points with
  | _ :: y :: rest => y :: ys_of rest
  | _ => []
  end.

Definition item_within (x_lo y_lo x_hi y_hi : Z) (item : CanvasItem) : Prop :=
  match item with
  | Polygon points _ _ _ =>
      Forall (fun x => x_lo <= x <= x_hi)%Z (xs_of points) /\
      Forall (fun y => y_lo <= y <= y_hi)%Z (ys_of points)
  | Oval x0 y0 x1 y1 _ _ =>
      (x_lo <= x0 /\ x0 <= x1 /\ x1 <= x_hi /\
       y_lo <= y0 /\ y0 <= y1 /\ y1 <= y_hi)%Z
  end.

(** What the canvas shows for a switch of the given size in the given
    state, and what the callback hears of a list of actions. *)
Definition rendering (width height : Z) (on : bool) : list CanvasItem :=
  [ Polygon (rounded_rect_points 2 2 (width - 2) (height - 2) 13)
      (if on then "#4CAF50" else "#cccccc") "" true;
    Oval ((if on then width - 15 else 15) - 11) 4
         ((if on then width - 15 else 15) + 11) (height - 4) "white" "" ]%Z.

Fixpoint click_log (on : bool) (actions : list SwitchAction) : list bool :=
  match actions with
  | [] => []
  | Click :: actions' => negb on :: click_log (negb on) actions'
  | SetState b :: actions' => click_log b actions'
  end.

Fixpoint final_state (on : bool) (actions : list SwitchAction) : bool :=
  match actions with
  | [] => on
  | Click :: actions' => final_state (negb on) actions'
  | SetState b :: actions' => final_state b actions'
  end.

(** Error dialogs, calls of [plot_simulation] and the closing status among
    the events of a run. *)
Definition is_dialog {T : Type} (ev : Event T) : bool :=
  match ev with
  | Showerror _ _ => true
  | _ => false
  end.

Definition is_plot {T : Type} (ev : Event T) : bool :=
  match ev with
  | PlotSimulation _ _ _ => true
  | _ => false
  end.

Definition is_completed {T : Type} (ev : Event T) : bool :=
  match ev with
  | StatusConfig text => String.eqb text "Beam simulation completed!"
  | _ => false
  end.

(** The form with "abc" in the area field and nothing in the kappa
    field. *)
Definition two_mistyped (var_name : string) : string :=
  if String.eqb var_name "area" then "abc"
  else if String.eqb var_name "kappa" then "" else "1000".

(** A value for each of the eight quantities of the beam. *)
Definition beam_assignment {T : Type} (P k E I G A L theta : T) : gmap string T :=
  <["point load" := P]>
  (<["kappa" := k]>
  (<["youngs modulus" := E]>
  (<["moment of inertia" := I]>
  (<["shear modulus" := G]>
  (<["area" := A]>
  (<["length" := L]>
  (<["theta" := theta]> ∅))))))).

(** A rational stand-in for the floating-point routines of the helpers:
    pi to sixteen digits, square roots by six Babylonian steps from
    [(x + 1) / 2], and the fourth root, the only fractional power the module
    takes, by two square roots. *)
Definition babylonian (x : Q) : Q :=
  Nat.iter 6 (fun y => Qred ((y + x / y) / 2))%Q (Qred ((x + 1) / 2))%Q.

Definition rational_routines : Irrational Q := {|
  np_pi := 3.141592653589793%Q;
  np_sqrt := babylonian;
  pow_frac := fun x _ => babylonian (babylonian x)
|}.

(** ** The terms the properties are stated in *)

(** The two deflection terms, in exact arithmetic. *)
Definition bending (P E I L : Q) : Q := (P * L ^ 3 / (3 * E * I))%Q.

Definition shear (P L k G A : Q) : Q := (P * L / (k * G * A))%Q.

(** Relative tolerance 1e-9, and recovery of a quantity by an inverse. *)
Definition within_tolerance (v x : Q) : Prop :=
  (Qabs (v - x) <= 1e-9 * Qabs x)%Q.

Definition recovers (r : result Q) (x : Q) : Prop :=
  exists v : Q, r = Ok v /\ (v == x)%Q /\ within_tolerance v x.

(** The cubic that [solve_for_L_from_timoshenko] hands to [np.roots]. *)
Definition timoshenko_cubic (c3 c1 theta x : Q) : Q :=
  (c3 * x ^ 3 + c1 * x - theta)%Q.

(** The same round trip through the Young's-modulus inverse on binary64
    floats, the tolerance tested in floating point as a caller would. *)
Definition within_tolerance64 (v x : float) : bool :=
  PrimFloat.leb (PrimFloat.abs (PrimFloat.sub v x))
                (PrimFloat.mul 1e-9%float (PrimFloat.abs x)).

Definition positive64 (x : float) : Prop := PrimFloat.ltb PrimFloat.zero x = true.

Definition round_trip_E_binary64 : Prop :=
  forall P E I L k G A : float,
    positive64 P -> positive64 E -> positive64 I -> positive64 L ->
    positive64 k -> positive64 G -> positive64 A ->
    exists theta v : float,
      timoshenko_beam_deflection P E I L k G A = Ok theta /\
      solve_for_E_from_timoshenko theta P I L k G A = Ok v /\
      within_tolerance64 v E = true.

(** [np.roots] refuses coefficients that are not finite. *)
Definition rejects_nonfinite (np : NumPy float) : Prop :=
  forall coeffs : list float,
    Exists (fun c => float_isfinite c = false) coeffs ->
    np coeffs = Raise LinAlgError.

(** A root finder given by a table of polynomials and their roots; a
    polynomial that is not listed has no root listed. *)
Fixpoint coeffs_eqb (p q : list Q) : bool :=
  match p, q with
  | [], [] => true
  | a :: p', b :: q' => Qeq_bool a b && coeffs_eqb p' q'
  | _, _ => false
  end.

Definition roots_table (table : list (list Q * list (Q * Q))) : NumPy Q :=
  fun coeffs =>
    match List.find (fun entry => coeffs_eqb coeffs (fst entry)) table with
    | Some entry => Ok (snd entry)
    | None => Ok []
    end.

(** x^3 + x - 10 = (x - 2)(x^2 + 2x + 5), and x^3/3 + x + 1, whose real
    root is negative (to sixteen digits). *)
Definition worked_roots : NumPy Q :=
  roots_table
    [ ([1; 0; 1; -10]%Q, [(-1, 2); (-1, -2); (2, 0)]%Q);
      ([1 # 3; 0; 1; 1]%Q,
       [(0.4088658369434118, 1.871233234489573);
        (0.4088658369434118, -1.871233234489573);
        (-0.8177316738868236, 0)]%Q) ].

(** The reading under which the length inverse signals an error whenever the
    cubic stays away from zero on the positive axis (so that it has no real
    positive root). *)
Definition signals_without_positive_root (np : NumPy Q) : Prop :=
  forall theta P E I k G A : Q,
    ~ (3 * E * I == 0)%Q -> ~ (k * G * A == 0)%Q ->
    (exists m : Q, (0 < m)%Q /\
       forall x : Q, (0 < x)%Q ->
         (m <= Qabs (timoshenko_cubic (P / (3 * E * I)) (P / (k * G * A)) theta x))%Q) ->
    exists e, solve_for_L_from_timoshenko (H0 := np) theta P E I k G A = Raise e.

(** A division that raises exactly under [singular] and otherwise returns
    [v]. *)
Definition raises_iff (r : result Q) (singular : Prop) (v : Q) : Prop :=
  (singular /\ r = Raise ZeroDivisionError) \/ (~ singular /\ r = Ok v).

(** The reading that places the singular input of the shear-modulus and
    area inverses at [theta = P*L/(k*G*A)], as it is for the two inverses
    on the bending side. *)
Definition singular_at_shear
    (f : Q -> Q -> Q -> Q -> Q -> Q -> Q -> Q -> result Q) : Prop :=
  forall theta P E I L k G A : Q,
    (~ E == 0 -> ~ I == 0 -> ~ k == 0 -> ~ G == 0 -> ~ A == 0 ->
     ~ theta == shear P L k G A ->
     f theta P E I L k G A <> Raise ZeroDivisionError) /\
    (theta == shear P L k G A ->
     f theta P E I L k G A = Raise ZeroDivisionError).

(** * Properties *)

(** ** The model returned by [create_beam_model] *)

Section BeamModelFacts.
Context {T : Type} `{PyNumber T} `{NumPy T}.

Lemma create_beam_model_ok : create_beam_model = Ok beam_model.
Proof. reflexivity. Qed.

Lemma beam_model_nodes : nodes beam_model = beam_nodes.
Proof. reflexivity. Qed.

Lemma beam_model_labels :
  map rel_label (relations beam_model) =
  ["Timoshenko"; "Timoshenko->P"; "Timoshenko->E"; "Timoshenko->I";
   "Timoshenko->L"; "Timoshenko->k"; "Timoshenko->G"; "Timoshenko->A"].
Proof. reflexivity. Qed.

Lemma beam_model_outputs :
  map rel_output (relations beam_model) =
  ["theta"; "point load"; "youngs modulus"; "moment of inertia";
   "length"; "kappa"; "shear modulus"; "area"].
Proof. reflexivity. Qed.

(** C6: every relation registered by [create_beam_model] declares seven
    input nodes and binds a function of exactly seven parameters, so the
    arity check of registration passes for all eight and the model is
    built. *)
Theorem C6_arity_invariant :
  exists hg : Hypergraph T,
    create_beam_model = Ok hg /\
    length (relations hg) = 8%nat /\
    Forall (fun r => length (rel_inputs r) = arity (rel_fn r) /\
                     length (rel_inputs r) = 7%nat /\
                     arity (rel_fn r) = 7%nat)
           (relations hg).
Proof.
  exists beam_model. split; [apply create_beam_model_ok|].
  split; [reflexivity|].
  repeat constructor.
Qed.

(** C9: each of the eight registered nodes has exactly one relation
    producing it, so first-success fallback never has a second candidate
    for a node of this model; an unregistered node has none. *)
Theorem C9_single_producer :
  length (nodes (beam_model (T:=T))) = 8%nat /\
  Forall (fun n => exists r, relations_for beam_model n = [r] /\ rel_output r = n)
         (nodes (beam_model (T:=T))) /\
  forall n : string, (length (relations_for (beam_model (T:=T)) n) <= 1)%nat.
Proof.
  split; [reflexivity|]. split.
  - repeat constructor; eexists; (split; [reflexivity|reflexivity]).
  - intros n. unfold relations_for.
    assert (Hnd : NoDup (map rel_output (relations (beam_model (T:=T))))).
    { rewrite beam_model_outputs. by apply (bool_decide_unpack _). }
    revert Hnd. generalize (relations (beam_model (T:=T))).
    induction l as [|r l IH]; intros Hnd; [simpl; lia|].
    simpl in Hnd. apply NoDup_cons in Hnd as [Hr Hl].
    rewrite filter_cons. case_decide as Hn.
    + subst n. simpl.
      assert (filter (fun r0 : Relation T => rel_output r0 = rel_output r) l = []) as ->.
      { clear IH Hl. induction l as [|r' l IH]; [reflexivity|].
        rewrite filter_cons. case_decide as Hn.
        - exfalso. apply Hr. simpl. rewrite Hn. left.
        - apply IH. intros Hin. apply Hr. simpl. right. exact Hin. }
      simpl. lia.
    + apply IH, Hl.
Qed.

End BeamModelFacts.

(** ** The resolver: known nodes, blocked inputs, exhausted candidates *)

Section ResolverFacts.
Context {T : Type} `{PyNumber T}.

Implicit Types (hg : Hypergraph T) (s : Session T) (n : string)
  (rec : Session T -> string -> Session T * result T).

Lemma resolve_node_O hg resolving s n :
  resolve_node hg O resolving s n =
  match values s !! n with
  | Some v => (s, Ok v)
  | None =>
      if bool_decide (n ∈ resolving) then (s, Raise (CycleDetectedError n))
      else (s, Raise (DepthExceededError n))
  end.
Proof. reflexivity. Qed.

Lemma resolve_node_S hg d resolving s n :
  resolve_node hg (S d) resolving s n =
  match values s !! n with
  | Some v => (s, Ok v)
  | None =>
      if bool_decide (n ∈ resolving) then (s, Raise (CycleDetectedError n))
      else try_relations (resolve_node hg d (n :: resolving)) n s
             (relations_for hg n)
  end.
Proof. reflexivity. Qed.

(** Step 1a: a value present in the session is returned at any depth and
    costs none. *)
Lemma resolve_node_known hg d resolving s n v :
  values s !! n = Some v ->
  resolve_node hg d resolving s n = (s, Ok v).
Proof.
  intros Hv. destruct d; [rewrite resolve_node_O|rewrite resolve_node_S];
    rewrite Hv; reflexivity.
Qed.

Lemma resolve_inputs_known rec s ins vs :
  (forall n v, values s !! n = Some v -> rec s n = (s, Ok v)) ->
  Forall2 (fun n v => values s !! n = Some v) ins vs ->
  resolve_inputs rec s ins = (s, Some vs).
Proof.
  intros Hrec Hall. induction Hall as [|n v ins vs Hn _ IH]; [reflexivity|].
  simpl. rewrite (Hrec _ _ Hn), IH. reflexivity.
Qed.

(** If every known input is returned as it is and every unknown input
    fails without touching the session, one unknown input is enough to
    abandon the relation, and the session is as before. *)
Lemma resolve_inputs_blocked rec s ins :
  (forall n v, values s !! n = Some v -> rec s n = (s, Ok v)) ->
  (forall n, values s !! n = None -> exists e, rec s n = (s, Raise e)) ->
  (exists n, n ∈ ins /\ values s !! n = None) ->
  resolve_inputs rec s ins = (s, None).
Proof.
  intros Hknown Hunknown. induction ins as [|i ins IH]; intros (n & Hin & Hn).
  - apply elem_of_nil in Hin as [].
  - simpl. destruct (values s !! i) as [v|] eqn:Hi.
    + rewrite (Hknown _ _ Hi).
      apply elem_of_cons in Hin as [->|Hin]; [congruence|].
      rewrite IH; [reflexivity|]. exists n. split; assumption.
    + destruct (Hunknown _ Hi) as [e ->]. reflexivity.
Qed.

Lemma try_relations_exhausted rec n s candidates :
  (forall r, r ∈ candidates -> resolve_inputs rec s (rel_inputs r) = (s, None)) ->
  try_relations rec n s candidates = (s, Raise (UnresolvedNodeError n)).
Proof.
  induction candidates as [|r candidates IH]; intros Hall; [reflexivity|].
  simpl. rewrite (Hall r) by apply list_elem_of_here.
  apply IH. intros r' Hr'. apply Hall. apply list_elem_of_further, Hr'.
Qed.

Lemma trace_from_no_provenance fuel (prov : gmap string (Step T)) n :
  prov !! n = None -> trace_from fuel prov n = [].
Proof. intros Hn. destruct fuel; simpl; [|rewrite Hn]; reflexivity. Qed.

(** A relation all of whose inputs are known resolves its output in one
    step: the value is what the function returns on the known values, and
    the trace is that single step. *)
Lemma resolve_direct hg (knowns : gmap string T) target r rest args v :
  knowns !! target = None ->
  relations_for hg target = r :: rest ->
  Forall2 (fun n a => knowns !! n = Some a) (rel_inputs r) args ->
  call (rel_fn r) args = Ok v ->
  isfinite v = true ->
  forall max_depth, (1 <= max_depth)%nat ->
    resolve hg knowns target max_depth =
    Ok (v, [ {| step_relation := rel_label r;
                step_inputs := zip (rel_inputs r) args;
                step_output := rel_output r;
                step_value := v |} ]).
Proof.
  intros Ht Hrels Hargs Hcall Hfin max_depth Hd.
  destruct max_depth as [|d]; [lia|].
  assert (Hout : rel_output r = target).
  { assert (Hr : r ∈ relations_for hg target) by (rewrite Hrels; left).
    apply list_elem_of_filter in Hr as [Hr _]. exact Hr. }
  unfold resolve. rewrite resolve_node_S. simpl values. rewrite Ht.
  rewrite bool_decide_eq_false_2 by apply not_elem_of_nil.
  rewrite Hrels. simpl try_relations.
  rewrite (resolve_inputs_known _ (new_session knowns) (rel_inputs r) args).
  2: { intros n a Hn. apply resolve_node_known, Hn. }
  2: { exact Hargs. }
  rewrite Hcall, Hfin. simpl provenance. rewrite Hout.
  simpl trace_from. rewrite lookup_insert_eq. do 3 f_equal.
  assert (Hnone : Forall (fun n => n <> target) (rel_inputs r)).
  { clear -Ht Hargs. induction Hargs as [|n a ins vs Hn _ IH]; constructor.
    - intros ->. congruence.
    - exact IH. }
  assert (Hfst : map fst (zip (rel_inputs r) args) = rel_inputs r).
  { apply fst_zip. rewrite (Forall2_length _ _ _ Hargs). lia. }
  simpl step_inputs. rewrite Hfst.
  match goal with |- context [trace_from d ?p] => set (prov := p) end.
  assert (Hprov : forall n, n <> target -> prov !! n = None).
  { intros n Hn. unfold prov. rewrite lookup_insert_ne by congruence.
    apply lookup_empty. }
  clearbody prov. clear -Hnone Hprov.
  induction Hnone as [|n ins Hn _ IH]; [reflexivity|].
  simpl. rewrite trace_from_no_provenance by (apply Hprov, Hn).
  exact IH.
Qed.

(** A domain error of the only candidate does not surface: the node is
    reported unresolved. *)
Lemma resolve_direct_error hg (knowns : gmap string T) target r args e :
  knowns !! target = None ->
  relations_for hg target = [r] ->
  Forall2 (fun n a => knowns !! n = Some a) (rel_inputs r) args ->
  call (rel_fn r) args = Raise e ->
  forall max_depth,
    resolve hg knowns target max_depth = Raise (UnresolvedNodeError target).
Proof.
  intros Ht Hrels Hargs Hcall max_depth. unfold resolve.
  destruct max_depth as [|d].
  - rewrite resolve_node_O. simpl values. rewrite Ht. reflexivity.
  - rewrite resolve_node_S. simpl values. rewrite Ht.
    rewrite bool_decide_eq_false_2 by apply not_elem_of_nil.
    rewrite Hrels. simpl try_relations.
    rewrite (resolve_inputs_known _ (new_session knowns) (rel_inputs r) args).
    2: { intros n a Hn. apply resolve_node_known, Hn. }
    2: { exact Hargs. }
    rewrite Hcall. reflexivity.
Qed.

(** *** Provenance stays within the model *)

Lemma record_step_in hg r args v s :
  r ∈ relations hg -> provenance_in hg s ->
  provenance_in hg (record_step r args v s).
Proof.
  intros Hr Hs n st. unfold record_step. simpl.
  rewrite lookup_insert. case_decide as Hn.
  - intros [= <-]. exists r. simpl. repeat split; try reflexivity; [exact Hr|].
    clear. generalize (rel_inputs r). intros ins. revert args.
    induction ins as [|i ins IH]; intros [|a args]; simpl;
      try apply prefix_nil.
    apply prefix_cons, IH.
  - apply Hs.
Qed.

Lemma resolve_inputs_in hg rec s ins :
  (forall s' n, provenance_in hg s' -> provenance_in hg (rec s' n).1) ->
  provenance_in hg s ->
  provenance_in hg (resolve_inputs rec s ins).1.
Proof.
  intros Hrec. revert s. induction ins as [|i ins IH]; intros s Hs; [exact Hs|].
  simpl. pose proof (Hrec s i Hs) as Hi.
  destruct (rec s i) as [s1 [v|e]]; [|exact Hi].
  pose proof (IH s1 Hi) as Hrest.
  destruct (resolve_inputs rec s1 ins) as [s2 [vs|]]; exact Hrest.
Qed.

Lemma try_relations_in hg rec n s candidates :
  (forall s' m, provenance_in hg s' -> provenance_in hg (rec s' m).1) ->
  (forall r, r ∈ candidates -> r ∈ relations hg) ->
  provenance_in hg s ->
  provenance_in hg (try_relations rec n s candidates).1.
Proof.
  intros Hrec. revert s.
  induction candidates as [|r candidates IH]; intros s Hsub Hs; [exact Hs|].
  simpl. pose proof (resolve_inputs_in hg rec s (rel_inputs r) Hrec Hs) as Hins.
  assert (Hsub' : forall r', r' ∈ candidates -> r' ∈ relations hg).
  { intros r' Hr'. apply Hsub, list_elem_of_further, Hr'. }
  destruct (resolve_inputs rec s (rel_inputs r)) as [s1 [args|]];
    [|apply IH; assumption].
  destruct (call (rel_fn r) args) as [v|e]; [|apply IH; assumption].
  destruct (isfinite v); [|apply IH; assumption].
  apply record_step_in; [apply Hsub, list_elem_of_here|exact Hins].
Qed.

Lemma resolve_node_in hg d :
  forall resolving s n,
    provenance_in hg s -> provenance_in hg (resolve_node hg d resolving s n).1.
Proof.
  induction d as [|d IH]; intros resolving s n Hs.
  - rewrite resolve_node_O. destruct (values s !! n); [exact Hs|].
    case_bool_decide; exact Hs.
  - rewrite resolve_node_S. destruct (values s !! n); [exact Hs|].
    case_bool_decide; [exact Hs|].
    apply try_relations_in; [intros; apply IH; assumption| |exact Hs].
    intros r Hr. apply list_elem_of_filter in Hr as [_ Hr]. exact Hr.
Qed.

Lemma trace_from_in hg fuel (prov : gmap string (Step T)) :
  (forall n st, prov !! n = Some st -> step_of hg st) ->
  forall n, Forall (step_of hg) (trace_from fuel prov n).
Proof.
  intros Hprov. induction fuel as [|fuel IH]; intros n; [constructor|].
  simpl. destruct (prov !! n) as [st|] eqn:Hn; [|constructor].
  constructor; [apply (Hprov _ _ Hn)|].
  generalize (map fst (step_inputs st)). intros ins.
  induction ins as [|i ins IHins]; [constructor|].
  simpl. apply Forall_app. split; [apply IH|exact IHins].
Qed.

(** Every step of a trace that [resolve] returns is the step of a
    registered relation. *)
Lemma resolve_trace_in hg (knowns : gmap string T) target max_depth v trace :
  resolve hg knowns target max_depth = Ok (v, trace) ->
  Forall (step_of hg) trace.
Proof.
  unfold resolve. intros Hres.
  pose proof (resolve_node_in hg max_depth [] (new_session knowns) target) as Hin.
  destruct (resolve_node hg max_depth [] (new_session knowns) target)
    as [s [w|e]]; [|discriminate].
  injection Hres as _ <-. apply trace_from_in. apply Hin.
  intros n st. simpl. rewrite lookup_empty. discriminate.
Qed.

End ResolverFacts.

(** ** Cycle safety of the beam model *)

Section CycleSafety.
Context {T : Type} `{PyNumber T} `{NumPy T}.

(** Every relation of the beam model reads every registered node but the
    one it produces. *)
Lemma beam_relations_read_all_others :
  Forall (fun r : Relation T => reads_all_others (rel_inputs r, rel_output r))
         (relations beam_model).
Proof.
  apply (Forall_fmap (fun r : Relation T => (rel_inputs r, rel_output r))
           reads_all_others).
  change ((fun r : Relation T => (rel_inputs r, rel_output r)) <$>
            relations beam_model)
    with (beam_signatures).
  unfold reads_all_others.
  apply (bool_decide_unpack _). vm_compute. reflexivity.
Qed.

Lemma beam_candidate_reads r n m :
  r ∈ relations_for (beam_model (T:=T)) n ->
  m ∈ beam_nodes -> m <> n ->
  n ∈ beam_nodes /\ m ∈ rel_inputs r.
Proof.
  intros Hr Hm Hmn. apply list_elem_of_filter in Hr as [Hout Hr].
  pose proof beam_relations_read_all_others as Hall.
  rewrite Forall_forall in Hall. destruct (Hall _ Hr) as [Hin Hreads].
  simpl in Hin, Hreads.
  rewrite Forall_forall in Hreads. subst n. split; [exact Hin|].
  destruct (Hreads _ Hm) as [->|Hread]; [contradiction|exact Hread].
Qed.

(** Below a node that is being resolved and is not known, nothing that is
    not already known can be resolved: the attempt fails, whatever the
    depth, and leaves the session as it was. *)
Lemma beam_blocked d :
  forall resolving (s : Session T) n y,
    y ∈ resolving -> y ∈ beam_nodes -> values s !! y = None ->
    values s !! n = None ->
    exists e, resolve_node beam_model d resolving s n = (s, Raise e).
Proof.
  induction d as [|d IH]; intros resolving s n y Hy Hyn Hys Hn.
  - rewrite resolve_node_O, Hn. case_bool_decide; eexists; reflexivity.
  - rewrite resolve_node_S, Hn. case_bool_decide as Hcyc; [eexists; reflexivity|].
    eexists. apply try_relations_exhausted. intros r Hr.
    assert (y <> n) as Hne by (intros ->; contradiction).
    destruct (beam_candidate_reads r n y Hr Hyn Hne) as [_ Hread].
    apply resolve_inputs_blocked.
    + intros x v Hx. apply resolve_node_known, Hx.
    + intros x Hx. apply (IH _ _ _ y); try assumption.
      apply list_elem_of_further, Hy.
    + exists y. split; assumption.
Qed.

(** A target that is not known, with another registered node not known
    either, is unresolved at every depth. *)
Lemma beam_unresolved (knowns : gmap string T) (target : string) :
  knowns !! target = None ->
  (exists m, m ∈ beam_nodes /\ m <> target /\ knowns !! m = None) ->
  forall max_depth,
    resolve beam_model knowns target max_depth =
    Raise (UnresolvedNodeError target).
Proof.
  intros Ht (m & Hm & Hmt & Hmk) max_depth. unfold resolve.
  destruct max_depth as [|d].
  - rewrite resolve_node_O. simpl values. rewrite Ht. reflexivity.
  - rewrite resolve_node_S. simpl values. rewrite Ht.
    rewrite bool_decide_eq_false_2 by apply not_elem_of_nil.
    rewrite try_relations_exhausted; [reflexivity|].
    intros r Hr.
    destruct (beam_candidate_reads r target m Hr Hm Hmt) as [Htn Hread].
    apply resolve_inputs_blocked.
    + intros x v Hx. apply resolve_node_known, Hx.
    + intros x Hx. apply (beam_blocked d _ _ _ target); try assumption.
      apply list_elem_of_here.
    + exists m. split; assumption.
Qed.

(** C4: in the beam model a target that is not known, with at least one
    other registered node not known either, fails with
    [UnresolvedNodeError] at every depth bound; [resolve] is a total
    function, it returns for every [max_depth]. *)
Theorem C4_cycle_safety (knowns : gmap string T) (target : string) :
  knowns !! target = None ->
  (exists m, m ∈ beam_nodes /\ m <> target /\ knowns !! m = None) ->
  forall max_depth,
    resolve beam_model knowns target max_depth =
    Raise (UnresolvedNodeError target).
Proof. apply beam_unresolved. Qed.

Lemma beam_single_candidate :
  Forall (fun r : Relation T => relations_for beam_model (rel_output r) = [r])
         (relations beam_model).
Proof. repeat constructor. Qed.

(** An error raised by the function of a beam relation whose inputs are
    all known does not surface from [resolve]: the node has no other
    candidate and is reported unresolved. *)
Lemma beam_error_folds (r : Relation T) (knowns : gmap string T) args e :
  r ∈ relations beam_model ->
  knowns !! rel_output r = None ->
  Forall2 (fun n a => knowns !! n = Some a) (rel_inputs r) args ->
  call (rel_fn r) args = Raise e ->
  forall max_depth,
    resolve beam_model knowns (rel_output r) max_depth =
    Raise (UnresolvedNodeError (rel_output r)).
Proof.
  intros Hr Hout Hargs Hcall.
  pose proof beam_single_candidate as Hone. rewrite Forall_forall in Hone.
  apply (resolve_direct_error _ _ _ r args e); auto.
Qed.

End CycleSafety.

(** ** The concrete scenario of [run_beam_simulation] *)

Section BeamScenario.
Context `{NumPy Q}.
Context {np64 : NumPy float}.
Local Open Scope Q_scope.

Lemma inputs_known :
  Forall2 (fun n a => inputs !! n = Some a)
    ["point load"; "youngs modulus"; "moment of inertia"; "length";
     "kappa"; "shear modulus"; "area"]
    [1000; 200e9; 1e-6; 2.0; 5 / 6; 80e9; 1e-4].
Proof. repeat constructor. Qed.

Lemma inputs64_known :
  Forall2 (fun n a => inputs64 !! n = Some a)
    ["point load"; "youngs modulus"; "moment of inertia"; "length";
     "kappa"; "shear modulus"; "area"]
    [1000; 200e9; 1e-6; 2.0; PrimFloat.div 5 6; 80e9; 1e-4]%float.
Proof. repeat constructor. Qed.

(** C1: with the seven knowns of the simulation script and any depth
    bound of at least one, [theta] resolves by the single direct
    Timoshenko relation to bending plus shear deflection,
    (1000*2^3)/(3*200e9*1e-6) + (1000*2)/((5/6)*80e9*1e-4), and the trace
    is that one step; in exact arithmetic and on binary64 floats alike. *)
Theorem C1_beam_scenario (max_depth : nat) :
  (1 <= max_depth)%nat ->
  (exists theta : Q,
    timoshenko_beam_deflection 1000 200e9 1e-6 2.0 (5 / 6) 80e9 1e-4 = Ok theta /\
    theta == (1000 * 2 ^ 3) / (3 * 200e9 * 1e-6) +
             (1000 * 2) / ((5 / 6) * 80e9 * 1e-4) /\
    resolve beam_model inputs target_node max_depth =
    Ok (theta,
        [ {| step_relation := "Timoshenko";
             step_inputs :=
               [("point load", 1000); ("youngs modulus", 200e9);
                ("moment of inertia", 1e-6); ("length", 2.0);
                ("kappa", 5 / 6); ("shear modulus", 80e9); ("area", 1e-4)];
             step_output := "theta";
             step_value := theta |} ])) /\
  (exists theta : float,
    timoshenko_beam_deflection 1000 200e9 1e-6 2.0 (5 / 6) 80e9 1e-4 = Ok theta /\
    theta = ((1000 * (2 * 2 * 2)) / (3 * 200e9 * 1e-6) +
             (1000 * 2) / ((5 / 6) * 80e9 * 1e-4)) /\
    resolve beam_model inputs64 target_node max_depth =
    Ok (theta,
        [ {| step_relation := "Timoshenko";
             step_inputs :=
               [("point load", 1000); ("youngs modulus", 200e9);
                ("moment of inertia", 1e-6); ("length", 2.0);
                ("kappa", 5 / 6); ("shear modulus", 80e9); ("area", 1e-4)];
             step_output := "theta";
             step_value := theta |} ]))%float.
Proof.
  intros Hd. split.
  - eexists. split; [reflexivity|]. split; [reflexivity|].
    apply (resolve_direct beam_model inputs target_node
             {| rel_inputs := ["point load"; "youngs modulus"; "moment of inertia";
                               "length"; "kappa"; "shear modulus"; "area"];
                rel_output := "theta";
                rel_fn := def 7 timoshenko_beam_deflection;
                rel_label := "Timoshenko" |} []
             [1000; 200e9; 1e-6; 2.0; 5 / 6; 80e9; 1e-4]).
    + reflexivity.
    + reflexivity.
    + exact inputs_known.
    + reflexivity.
    + reflexivity.
    + exact Hd.
  - eexists. split; [reflexivity|]. split; [reflexivity|].
    apply (resolve_direct beam_model inputs64 target_node
             {| rel_inputs := ["point load"; "youngs modulus"; "moment of inertia";
                               "length"; "kappa"; "shear modulus"; "area"];
                rel_output := "theta";
                rel_fn := def 7 timoshenko_beam_deflection;
                rel_label := "Timoshenko" |} []
             [1000; 200e9; 1e-6; 2.0; PrimFloat.div 5 6; 80e9; 1e-4]%float).
    + reflexivity.
    + reflexivity.
    + exact inputs64_known.
    + reflexivity.
    + reflexivity.
    + exact Hd.
Qed.

End BeamScenario.

(** ** The first real positive element of an array *)

Section Selection.
Context {T : Type}.

Lemma filter_first (P : T * T -> bool) (before after : list (T * T)) (z : T * T) :
  Forall (fun w => P w = false) before -> P z = true ->
  exists rest, filter (fun w => P w = true) (before ++ z :: after) = z :: rest.
Proof.
  intros Hbefore Hz. induction Hbefore as [|w before Hw _ IH].
  - simpl. rewrite filter_cons_True by exact Hz. eexists; reflexivity.
  - simpl. rewrite filter_cons_False by congruence. exact IH.
Qed.

Lemma filter_none (P : T * T -> bool) (l : list (T * T)) :
  Forall (fun w => P w = false) l -> filter (fun w => P w = true) l = [].
Proof.
  intros Hl. induction Hl as [|w l Hw _ IH]; [reflexivity|].
  rewrite filter_cons_False by congruence. exact IH.
Qed.

Lemma filter_head (P : T * T -> bool) (l rest : list (T * T)) (z : T * T) :
  filter (fun w => P w = true) l = z :: rest -> z ∈ l /\ P z = true.
Proof.
  intros Hf.
  assert (Hz : z ∈ filter (fun w => P w = true) l)
    by (rewrite Hf; apply list_elem_of_here).
  apply list_elem_of_filter in Hz. tauto.
Qed.

Lemma filter_empty (P : T * T -> bool) (l : list (T * T)) :
  filter (fun w => P w = true) l = [] -> Forall (fun w => P w = false) l.
Proof.
  intros Hf. apply Forall_forall. intros w Hw.
  destruct (P w) eqn:HP; [|reflexivity]. exfalso.
  assert (Hin : w ∈ filter (fun w => P w = true) l)
    by (apply list_elem_of_filter; split; assumption).
  rewrite Hf in Hin. apply elem_of_nil in Hin as [].
Qed.

End Selection.

(** ** Exact arithmetic: where the inverses are defined *)

Section ExactArithmetic.
Local Open Scope Q_scope.

Lemma Q_truediv_ok (x y : Q) : ~ y == 0 -> truediv x y = Ok (x / y).
Proof.
  intros Hy. cbn. destruct (Qeq_bool y 0) eqn:Hb; [|reflexivity].
  apply Qeq_bool_eq in Hb. contradiction.
Qed.

Lemma Q_truediv_zero (x y : Q) : y == 0 -> truediv x y = Raise ZeroDivisionError.
Proof.
  intros Hy. cbn. destruct (Qeq_bool y 0) eqn:Hb; [reflexivity|].
  apply Qeq_bool_neq in Hb. contradiction.
Qed.

Lemma Q_truediv_cases (x y : Q) :
  (y == 0 /\ truediv x y = Raise ZeroDivisionError) \/
  (~ y == 0 /\ truediv x y = Ok (x / y)).
Proof.
  destruct (Qeq_dec y 0) as [Hy|Hy].
  - left. split; [exact Hy|apply Q_truediv_zero, Hy].
  - right. split; [exact Hy|apply Q_truediv_ok, Hy].
Qed.

Lemma Q_pow3 (x : Q) : pow x 3 = Ok (x ^ 3).
Proof. reflexivity. Qed.

Ltac step_div :=
  first [ rewrite Q_truediv_ok by assumption
        | rewrite Q_truediv_zero by assumption ];
  cbn [bind].

Lemma timoshenko_beam_deflection_ok (P E I L k G A : Q) :
  ~ 3 * E * I == 0 -> ~ k * G * A == 0 ->
  timoshenko_beam_deflection P E I L k G A =
  Ok (bending P E I L + shear P L k G A).
Proof.
  intros Hb Hs. unfold timoshenko_beam_deflection.
  rewrite Q_pow3. cbn [bind]. do 2 step_div. reflexivity.
Qed.

Lemma Qminus_eq0 (a b : Q) : a - b == 0 <-> a == b.
Proof. split; intros Hab; lra. Qed.

Lemma Qmult3_eq0 (a b c : Q) : a * b * c == 0 <-> a == 0 \/ b == 0 \/ c == 0.
Proof.
  split.
  - intros Habc. apply Qmult_integral in Habc as [Hab|Hc]; [|tauto].
    apply Qmult_integral in Hab. tauto.
  - intros [Ha|[Hb|Hc]]; [rewrite Ha|rewrite Hb|rewrite Hc]; ring.
Qed.

Lemma three_times_eq0 (a b : Q) : 3 * a * b == 0 <-> a == 0 \/ b == 0.
Proof.
  rewrite Qmult3_eq0. split; [|tauto].
  intros [H3|Hab]; [discriminate H3|exact Hab].
Qed.

(** The three inverses on the shear side share one shape: the divisor is
    [x * y * (theta - bending)]. *)
Lemma shear_side_spec (theta P E I L x y : Q) (f : result Q) :
  f = (let* L3 := pow L 3 in
       let* b := truediv (P * L3) (3 * E * I) in
       truediv (P * L) (x * y * (theta - b)))%py ->
  ((E == 0 \/ I == 0 \/ x == 0 \/ y == 0 \/ theta == bending P E I L) /\
   f = Raise ZeroDivisionError) \/
  ((~ E == 0 /\ ~ I == 0 /\ ~ x == 0 /\ ~ y == 0 /\ ~ theta == bending P E I L) /\
   f = Ok (P * L / (x * y * (theta - bending P E I L)))).
Proof.
  intros ->. rewrite Q_pow3. cbn [bind mul sub Q_number].
  destruct (Q_truediv_cases (P * L ^ 3) (3 * E * I)) as [[Hz ->]|[Hnz ->]];
    cbn [bind].
  - left. split; [|reflexivity]. apply three_times_eq0 in Hz. tauto.
  - rewrite three_times_eq0 in Hnz.
    destruct (Q_truediv_cases (P * L) (x * y * (theta - P * L ^ 3 / (3 * E * I))))
      as [[Hz ->]|[Hnz' ->]].
    + left. split; [|reflexivity].
      apply Qmult3_eq0 in Hz. rewrite Qminus_eq0 in Hz. unfold bending. tauto.
    + right. split; [|reflexivity].
      rewrite Qmult3_eq0, Qminus_eq0 in Hnz'. unfold bending. tauto.
Qed.

(** The two inverses on the bending side: the divisor is
    [3 * x * (theta - shear)]. *)
Lemma bending_side_spec (theta P x L k G A : Q) (f : result Q) :
  f = (let* L3 := pow L 3 in
       let* s := truediv (P * L) (k * G * A) in
       truediv (P * L3) (3 * x * (theta - s)))%py ->
  ((k == 0 \/ G == 0 \/ A == 0 \/ x == 0 \/ theta == shear P L k G A) /\
   f = Raise ZeroDivisionError) \/
  ((~ k == 0 /\ ~ G == 0 /\ ~ A == 0 /\ ~ x == 0 /\ ~ theta == shear P L k G A) /\
   f = Ok (P * L ^ 3 / (3 * x * (theta - shear P L k G A)))).
Proof.
  intros ->. rewrite Q_pow3. cbn [bind mul sub Q_number].
  destruct (Q_truediv_cases (P * L) (k * G * A)) as [[Hz ->]|[Hnz ->]];
    cbn [bind].
  - left. split; [|reflexivity]. apply Qmult3_eq0 in Hz. tauto.
  - rewrite Qmult3_eq0 in Hnz.
    destruct (Q_truediv_cases (P * L ^ 3) (3 * x * (theta - P * L / (k * G * A))))
      as [[Hz ->]|[Hnz' ->]].
    + left. split; [|reflexivity].
      apply Qmult3_eq0 in Hz. rewrite Qminus_eq0 in Hz. unfold shear.
      destruct Hz as [H3|Hz]; [discriminate H3|tauto].
    + right. split; [|reflexivity].
      rewrite Qmult3_eq0, Qminus_eq0 in Hnz'. unfold shear. tauto.
Qed.

Lemma exact_within_tolerance (v x : Q) : v == x -> within_tolerance v x.
Proof.
  intros Hv. unfold within_tolerance.
  assert (Hz : v - x == 0) by lra. rewrite Hz. simpl Qabs at 1.
  apply Qmult_le_0_compat; [apply Qle_bool_imp_le; reflexivity|].
  apply Qabs_nonneg.
Qed.

Lemma recovers_intro (r : result Q) (v x : Q) :
  r = Ok v -> v == x -> recovers r x.
Proof.
  intros Hr Hv. exists v. split; [exact Hr|].
  split; [exact Hv|apply exact_within_tolerance, Hv].
Qed.

Section Positive.
Variables P E I L k G A : Q.
Hypotheses (HP : 0 < P) (HE : 0 < E) (HI : 0 < I) (HL : 0 < L)
           (Hk : 0 < k) (HG : 0 < G) (HA : 0 < A).

Lemma bending_divisor_pos : 0 < 3 * E * I.
Proof. assert (0 < E * I) by nra. nra. Qed.

Lemma shear_divisor_pos : 0 < k * G * A.
Proof. assert (0 < k * G) by nra. nra. Qed.

Lemma cube_pos : 0 < L ^ 3.
Proof.
  assert (Hsq : 0 < L * L) by nra.
  change (L ^ 3) with (L * (L * L)). nra.
Qed.

Lemma bending_pos : 0 < bending P E I L.
Proof.
  unfold bending. apply Qlt_shift_div_l; [apply bending_divisor_pos|].
  pose proof cube_pos. nra.
Qed.

Lemma shear_pos : 0 < shear P L k G A.
Proof.
  unfold shear. apply Qlt_shift_div_l; [apply shear_divisor_pos|]. nra.
Qed.
End Positive.

Lemma raises_iff_intro (r : result Q) (neg singular : Prop) (v : Q) :
  (neg <-> ~ singular) ->
  (singular /\ r = Raise ZeroDivisionError) \/ (neg /\ r = Ok v) ->
  raises_iff r singular v.
Proof. unfold raises_iff. tauto. Qed.

Lemma real_positive_Q (z : Q * Q) :
  real_positive z = true <-> snd z == 0 /\ 0 < fst z.
Proof.
  unfold real_positive, isreal, complex_gt0. cbn [eq0 gt0 Q_number].
  destruct (Qeq_bool (snd z) 0) eqn:Him.
  - apply Qeq_bool_eq in Him. rewrite Bool.andb_true_l.
    assert (Hsnd : Qle_bool (snd z) 0 = true)
      by (apply Qle_bool_iff; rewrite Him; apply Qle_refl).
    rewrite Hsnd. simpl negb at 2. rewrite Bool.andb_false_r, Bool.orb_false_r.
    destruct (Qle_bool (fst z) 0) eqn:Hre; simpl.
    + apply Qle_bool_iff in Hre. split; [discriminate|]. intros [_ Hpos]. lra.
    + split; [|reflexivity]. intros _. split; [exact Him|].
      apply Qnot_le_lt. intros Hle. apply Qle_bool_iff in Hle. congruence.
  - apply Qeq_bool_neq in Him. simpl. split; [discriminate|].
    intros [H0 _]. contradiction.
Qed.

(** Backward error of the cubic: a positive [r] whose residual is at most
    [eps] times the deflection lies within [eps * L] of the length. *)
Lemma cubic_backward_error (c3 c1 L r eps : Q) :
  0 < c3 -> 0 < c1 -> 0 < L -> 0 < r -> 0 <= eps ->
  Qabs (timoshenko_cubic c3 c1 (c3 * L ^ 3 + c1 * L) r)
    <= eps * (c3 * L ^ 3 + c1 * L) ->
  Qabs (r - L) <= eps * L.
Proof.
  intros Hc3 Hc1 HL Hr Heps Hres.
  set (q := c3 * (r * r + r * L + L * L) + c1).
  assert (Hrr : 0 < r * r) by (apply Qmult_lt_0_compat; assumption).
  assert (HrL : 0 < r * L) by (apply Qmult_lt_0_compat; assumption).
  assert (HLL : 0 < L * L) by (apply Qmult_lt_0_compat; assumption).
  assert (Hq : 0 < q).
  { unfold q.
    assert (0 < c3 * (r * r + r * L + L * L)) by (apply Qmult_lt_0_compat; lra).
    lra. }
  assert (HqL : c3 * L ^ 3 + c1 * L <= q * L).
  { unfold q. change (L ^ 3) with (L * (L * L)).
    assert (0 < c3 * (r * r * L)).
    { apply Qmult_lt_0_compat; [assumption|].
      apply Qmult_lt_0_compat; assumption. }
    assert (0 < c3 * (r * L * L)).
    { apply Qmult_lt_0_compat; [assumption|].
      apply Qmult_lt_0_compat; assumption. }
    lra. }
  assert (Hfac : timoshenko_cubic c3 c1 (c3 * L ^ 3 + c1 * L) r == (r - L) * q).
  { unfold timoshenko_cubic, q. change (L ^ 3) with (L * (L * L)).
    change (r ^ 3) with (r * (r * r)). ring. }
  rewrite Hfac in Hres. clearbody q.
  set (t := c3 * L ^ 3 + c1 * L) in *. clearbody t.
  apply Qabs_Qle_condition in Hres as [Hlo Hhi].
  apply Qabs_Qle_condition. split.
  - apply Qnot_lt_le. intros Hlt.
    assert (0 < (- (eps * L) - (r - L)) * q) by (apply Qmult_lt_0_compat; lra).
    assert (0 <= eps * (q * L - t)) by (apply Qmult_le_0_compat; lra).
    lra.
  - apply Qnot_lt_le. intros Hlt.
    assert (0 < ((r - L) - eps * L) * q) by (apply Qmult_lt_0_compat; lra).
    assert (0 <= eps * (q * L - t)) by (apply Qmult_le_0_compat; lra).
    lra.
Qed.

Context `{NumPy Q}.

(** With both divisors non-zero the length inverse is its call of
    [np.roots] and the selection among what that returns. *)
Lemma solve_for_L_exact (theta P E I k G A : Q) :
  ~ 3 * E * I == 0 -> ~ k * G * A == 0 ->
  solve_for_L_from_timoshenko theta P E I k G A =
  bind (np_roots [P / (3 * E * I); 0; P / (k * G * A); - theta])
       (fun roots =>
          match filter (fun z => real_positive z = true) roots with
          | z :: _ => Ok (Element z)
          | [] => Ok (Number 0)
          end).
Proof.
  intros Hb Hs. unfold solve_for_L_from_timoshenko.
  cbn [mul Q_number]. do 2 step_div. reflexivity.
Qed.

Lemma zero_outside_tolerance (L : Q) : 0 < L -> ~ within_tolerance 0 L.
Proof.
  intros HL. unfold within_tolerance. intros Hle.
  rewrite (Qabs_pos L) in Hle by lra.
  assert (Habs : Qabs (0 - L) == L).
  { assert (H0L : 0 - L == - L) by ring. rewrite H0L, Qabs_opp.
    apply Qabs_pos. lra. }
  rewrite Habs in Hle.
  assert (Hlt : 1e-9 * L < 1 * L).
  { apply Qmult_lt_compat_r; [exact HL|reflexivity]. }
  lra.
Qed.

(** C3, in exact arithmetic: for positive parameters the forward relation
    returns a deflection from which each of the six rational inverses
    recovers its quantity exactly, hence within relative tolerance 1e-9.
    The length inverse raises what [np.roots] raises; when [np.roots]
    returns, it returns the first real positive element listed, which is
    the length when it is an exact root of the cubic and within the
    tolerance of the length when its residual is at most 1e-9 of the
    deflection; when no element listed is real and positive it returns 0,
    which is not within the tolerance. *)
Theorem C3_round_trip_exact (P E I L k G A : Q) :
  0 < P -> 0 < E -> 0 < I -> 0 < L -> 0 < k -> 0 < G -> 0 < A ->
  exists theta : Q,
    timoshenko_beam_deflection P E I L k G A = Ok theta /\
    recovers (solve_for_P_from_timoshenko theta E I L k G A) P /\
    recovers (solve_for_E_from_timoshenko theta P I L k G A) E /\
    recovers (solve_for_I_from_timoshenko theta P E L k G A) I /\
    recovers (solve_for_k_from_timoshenko theta P E I L G A) k /\
    recovers (solve_for_G_from_timoshenko theta P E I L k A) G /\
    recovers (solve_for_A_from_timoshenko theta P E I L k G) A /\
    (forall e,
        np_roots [P / (3 * E * I); 0; P / (k * G * A); - theta] = Raise e ->
        solve_for_L_from_timoshenko theta P E I k G A = Raise e) /\
    (forall roots,
        np_roots [P / (3 * E * I); 0; P / (k * G * A); - theta] = Ok roots ->
        (forall before z after,
            roots = before ++ z :: after ->
            Forall (fun w => real_positive w = false) before ->
            real_positive z = true ->
            solve_for_L_from_timoshenko theta P E I k G A = Ok (Element z) /\
            (timoshenko_cubic (P / (3 * E * I)) (P / (k * G * A)) theta (fst z)
               == 0 ->
             fst z == L) /\
            (Qabs (timoshenko_cubic (P / (3 * E * I)) (P / (k * G * A)) theta
                     (fst z)) <= 1e-9 * theta ->
             within_tolerance (fst z) L)) /\
        (Forall (fun w => real_positive w = false) roots ->
         solve_for_L_from_timoshenko theta P E I k G A = Ok (Number 0) /\
         ~ within_tolerance 0 L)).
Proof.
  intros HP HE HI HL Hk HG HA.
  pose proof (bending_divisor_pos E I HE HI) as Hdb.
  pose proof (shear_divisor_pos k G A Hk HG HA) as Hds.
  pose proof (cube_pos L HL) as HL3.
  pose proof (bending_pos P E I L HP HE HI HL) as Hb.
  pose proof (shear_pos P L k G A HP HL Hk HG HA) as Hs.
  assert (HPL3 : 0 < P * L ^ 3) by (apply Qmult_lt_0_compat; assumption).
  assert (HPL : 0 < P * L) by (apply Qmult_lt_0_compat; assumption).
  assert (Hx1 : 0 < P * L ^ 3 * (k * G * A)) by (apply Qmult_lt_0_compat; assumption).
  assert (Hx2 : 0 < P * L * (3 * E * I)) by (apply Qmult_lt_0_compat; assumption).
  assert (Hx3 : 0 < L ^ 3 * (k * G * A)) by (apply Qmult_lt_0_compat; assumption).
  assert (Hx4 : 0 < L * (3 * E * I)) by (apply Qmult_lt_0_compat; assumption).
  exists (bending P E I L + shear P L k G A).
  split; [apply timoshenko_beam_deflection_ok; lra|].
  assert (Hc3 : 0 < P / (3 * E * I)) by (apply Qlt_shift_div_l; lra).
  assert (Hc1 : 0 < P / (k * G * A)) by (apply Qlt_shift_div_l; lra).
  assert (Htheta : bending P E I L + shear P L k G A ==
                   P / (3 * E * I) * L ^ 3 + P / (k * G * A) * L).
  { unfold bending, shear. field. split; lra. }
  split; [|split; [|split; [|split; [|split; [|split; [|split]]]]]].
  - (* P *)
    assert (Hsum : 0 < L ^ 3 / (3 * E * I) + L / (k * G * A)).
    { assert (0 < L ^ 3 / (3 * E * I)) by (apply Qlt_shift_div_l; lra).
      assert (0 < L / (k * G * A)) by (apply Qlt_shift_div_l; lra). lra. }
    assert (Hn1 : ~ 3 * E * I == 0) by lra.
    assert (Hn2 : ~ k * G * A == 0) by lra.
    assert (Hn3 : ~ L ^ 3 / (3 * E * I) + L / (k * G * A) == 0) by lra.
    eapply recovers_intro.
    + unfold solve_for_P_from_timoshenko. rewrite Q_pow3.
      cbn [bind]. do 2 step_div. apply Q_truediv_ok. assumption.
    + change ((bending P E I L + shear P L k G A) /
                (L ^ 3 / (3 * E * I) + L / (k * G * A)) == P).
      unfold bending, shear. field. repeat split; lra.
  - (* E *)
    destruct (bending_side_spec (bending P E I L + shear P L k G A) P I L k G A _ eq_refl)
      as [[Hsing _]|[_ Hok]]; [lra|].
    eapply recovers_intro; [exact Hok|].
    unfold bending, shear. field. repeat split; lra.
  - (* I *)
    destruct (bending_side_spec (bending P E I L + shear P L k G A) P E L k G A _ eq_refl)
      as [[Hsing _]|[_ Hok]]; [lra|].
    eapply recovers_intro; [exact Hok|].
    unfold bending, shear. field. repeat split; lra.
  - (* k *)
    destruct (shear_side_spec (bending P E I L + shear P L k G A) P E I L G A _ eq_refl)
      as [[Hsing _]|[_ Hok]]; [lra|].
    eapply recovers_intro; [exact Hok|].
    unfold bending, shear. field. repeat split; lra.
  - (* G *)
    destruct (shear_side_spec (bending P E I L + shear P L k G A) P E I L k A _ eq_refl)
      as [[Hsing _]|[_ Hok]]; [lra|].
    eapply recovers_intro; [exact Hok|].
    unfold bending, shear. field. repeat split; lra.
  - (* A *)
    destruct (shear_side_spec (bending P E I L + shear P L k G A) P E I L k G _ eq_refl)
      as [[Hsing _]|[_ Hok]]; [lra|].
    eapply recovers_intro; [exact Hok|].
    unfold bending, shear. field. repeat split; lra.
  - (* L, when np.roots raises *)
    intros e Hraise. rewrite solve_for_L_exact by lra.
    rewrite Hraise. reflexivity.
  - (* L, when np.roots returns *)
    intros roots Hroots. rewrite solve_for_L_exact by lra.
    rewrite Hroots. cbn [bind]. split.
    + intros before z after -> Hbefore Hz.
      destruct (filter_first real_positive before after z Hbefore Hz)
        as [rest ->].
      split; [reflexivity|].
      apply real_positive_Q in Hz as [_ Hpos].
      assert (Hwithin : forall eps, 0 <= eps ->
                Qabs (timoshenko_cubic (P / (3 * E * I)) (P / (k * G * A))
                        (bending P E I L + shear P L k G A) (fst z))
                  <= eps * (bending P E I L + shear P L k G A) ->
                Qabs (fst z - L) <= eps * L).
      { intros eps Heps Hres.
        apply (cubic_backward_error (P / (3 * E * I)) (P / (k * G * A)));
          try assumption.
        unfold timoshenko_cubic in *. rewrite <- Htheta. exact Hres. }
      split.
      * intros Hroot.
        assert (Hzero : Qabs (fst z - L) <= 0 * L).
        { apply Hwithin; [apply Qle_refl|]. rewrite Hroot.
          change (Qabs 0) with 0. lra. }
        apply Qabs_Qle_condition in Hzero. lra.
      * intros Hres. unfold within_tolerance. rewrite (Qabs_pos L) by lra.
        apply Hwithin; [apply Qle_bool_imp_le; reflexivity|exact Hres].
    + intros Hnone. rewrite (filter_none real_positive _ Hnone).
      split; [reflexivity|apply zero_outside_tolerance, HL].
Qed.

Context {np64 : NumPy float}.

(** C5, as the code has it.  In exact arithmetic the kappa, shear-modulus
    and area inverses divide by zero exactly when [E], [I] or one of
    their two shear factors is zero or [theta] equals the bending term
    [P*L^3/(3*E*I)]; the Young's-modulus and inertia inverses exactly when
    [k], [G], [A] or their own factor is zero or [theta] equals the shear
    term [P*L/(k*G*A)]; everywhere else they return the quotient.  On
    binary64 floats this does not carry over: a divisor is zero although
    none of its factors is when their product underflows (E = I = 1e-200
    for the bending divisor, k = G = A = 1e-200 for the shear divisor,
    at any length whose cube is computed), and at L = 1e200 the cube
    raises [OverflowError] before anything is divided.  Whatever the function raises does not surface from a
    resolution: the node is reported unresolved. *)
Theorem C5_inverse_singularities (theta P E I L k G A : Q) :
  raises_iff (solve_for_k_from_timoshenko theta P E I L G A)
    (E == 0 \/ I == 0 \/ G == 0 \/ A == 0 \/ theta == bending P E I L)
    (P * L / (G * A * (theta - bending P E I L))) /\
  raises_iff (solve_for_G_from_timoshenko theta P E I L k A)
    (E == 0 \/ I == 0 \/ k == 0 \/ A == 0 \/ theta == bending P E I L)
    (P * L / (k * A * (theta - bending P E I L))) /\
  raises_iff (solve_for_A_from_timoshenko theta P E I L k G)
    (E == 0 \/ I == 0 \/ k == 0 \/ G == 0 \/ theta == bending P E I L)
    (P * L / (k * G * (theta - bending P E I L))) /\
  raises_iff (solve_for_E_from_timoshenko theta P I L k G A)
    (k == 0 \/ G == 0 \/ A == 0 \/ I == 0 \/ theta == shear P L k G A)
    (P * L ^ 3 / (3 * I * (theta - shear P L k G A))) /\
  raises_iff (solve_for_I_from_timoshenko theta P E L k G A)
    (k == 0 \/ G == 0 \/ A == 0 \/ E == 0 \/ theta == shear P L k G A)
    (P * L ^ 3 / (3 * E * (theta - shear P L k G A))) /\
  (forall t p l l3 x y : float,
      pow l 3 = Ok l3 ->
      solve_for_k_from_timoshenko t p 1e-200%float 1e-200%float l x y =
        Raise ZeroDivisionError /\
      solve_for_G_from_timoshenko t p 1e-200%float 1e-200%float l x y =
        Raise ZeroDivisionError /\
      solve_for_A_from_timoshenko t p 1e-200%float 1e-200%float l x y =
        Raise ZeroDivisionError /\
      solve_for_E_from_timoshenko t p x l
          1e-200%float 1e-200%float 1e-200%float = Raise ZeroDivisionError /\
      solve_for_I_from_timoshenko t p x l
          1e-200%float 1e-200%float 1e-200%float = Raise ZeroDivisionError) /\
  (forall t p e i x y z : float,
      solve_for_k_from_timoshenko t p e i 1e200%float x y = Raise OverflowError /\
      solve_for_G_from_timoshenko t p e i 1e200%float x y = Raise OverflowError /\
      solve_for_A_from_timoshenko t p e i 1e200%float x y = Raise OverflowError /\
      solve_for_E_from_timoshenko t p i 1e200%float x y z = Raise OverflowError /\
      solve_for_I_from_timoshenko t p e 1e200%float x y z = Raise OverflowError) /\
  (forall (r : Relation Q) (knowns : gmap string Q) args e,
      r ∈ relations beam_model ->
      knowns !! rel_output r = None ->
      Forall2 (fun n a => knowns !! n = Some a) (rel_inputs r) args ->
      call (rel_fn r) args = Raise e ->
      forall max_depth,
        resolve beam_model knowns (rel_output r) max_depth =
        Raise (UnresolvedNodeError (rel_output r))) /\
  (forall (r : Relation float) (knowns : gmap string float) args e,
      r ∈ relations beam_model ->
      knowns !! rel_output r = None ->
      Forall2 (fun n a => knowns !! n = Some a) (rel_inputs r) args ->
      call (rel_fn r) args = Raise e ->
      forall max_depth,
        resolve beam_model knowns (rel_output r) max_depth =
        Raise (UnresolvedNodeError (rel_output r))).
Proof.
  split; [|split; [|split; [|split; [|split; [|split; [|split; [|split]]]]]]].
  1-3: eapply raises_iff_intro;
    [|apply (shear_side_spec theta P E I L); reflexivity]; tauto.
  1-2: eapply raises_iff_intro;
    [|apply (bending_side_spec theta P _ L k G A); reflexivity]; tauto.
  - intros t p l l3 x y Hcube.
    unfold solve_for_k_from_timoshenko, solve_for_G_from_timoshenko,
      solve_for_A_from_timoshenko, solve_for_E_from_timoshenko,
      solve_for_I_from_timoshenko.
    rewrite Hcube. repeat split; vm_compute; reflexivity.
  - intros t p e i x y z. repeat split; vm_compute; reflexivity.
  - apply beam_error_folds.
  - apply beam_error_folds.
Qed.

(** C5, the reading refuted: the shear-modulus and area inverses are not
    singular at [theta = P*L/(k*G*A)].  At theta = 1/3 with every other
    quantity 1 they divide by zero although theta differs from the shear
    term. *)
Lemma C5_counterexample :
  ~ singular_at_shear
      (fun theta P E I L k G A => solve_for_G_from_timoshenko theta P E I L k A) /\
  ~ singular_at_shear
      (fun theta P E I L k G A => solve_for_A_from_timoshenko theta P E I L k G).
Proof.
  split; intros Hs; destruct (Hs (1 # 3) 1 1 1 1 1 1 1) as [Hno _];
    apply Hno; try discriminate; reflexivity.
Qed.

End ExactArithmetic.

(** ** Root selection of the length inverse *)

Section RootSelection.
Context {T : Type} `{PyNumber T} `{NumPy T}.
Local Open Scope py_scope.

(** C2, as the code has it: the length inverse computes its two
    coefficients and hands them to [np.roots]; an error raised by a
    division or by [np.roots] is the error it raises.  When [np.roots]
    returns, it returns exactly one value: the first element in the order
    of [np.roots] that is real and positive, as the element of the array
    it is; when no element listed is real and positive it returns 0 and
    signals nothing.  It returns no element that is not real and
    positive. *)
Theorem C2_root_selection (theta P E I k G A : T) :
  (forall e, P / (three * E * I) = Raise e ->
     solve_for_L_from_timoshenko theta P E I k G A = Raise e) /\
  (forall c3 e, P / (three * E * I) = Ok c3 -> P / (k * G * A) = Raise e ->
     solve_for_L_from_timoshenko theta P E I k G A = Raise e) /\
  (forall c3 c1, P / (three * E * I) = Ok c3 -> P / (k * G * A) = Ok c1 ->
     (forall e, np_roots [c3; of_int 0; c1; - theta] = Raise e ->
        solve_for_L_from_timoshenko theta P E I k G A = Raise e) /\
     (forall roots, np_roots [c3; of_int 0; c1; - theta] = Ok roots ->
        (forall before z after,
            roots = before ++ z :: after ->
            Forall (fun w => real_positive w = false) before ->
            real_positive z = true ->
            solve_for_L_from_timoshenko theta P E I k G A = Ok (Element z)) /\
        (Forall (fun w => real_positive w = false) roots ->
         solve_for_L_from_timoshenko theta P E I k G A =
         Ok (Number (of_int 0))) /\
        (exists v,
            solve_for_L_from_timoshenko theta P E I k G A = Ok v /\
            match v with
            | Element z => z ∈ roots /\ real_positive z = true
            | Number x =>
                x = of_int 0 /\ Forall (fun w => real_positive w = false) roots
            end))).
Proof.
  unfold solve_for_L_from_timoshenko. split; [|split].
  - intros e ->. reflexivity.
  - intros c3 e -> ->. reflexivity.
  - intros c3 c1 -> ->. cbn [bind]. split.
    + intros e ->. reflexivity.
    + intros roots ->. cbn [bind]. split; [|split].
      * intros before z after -> Hbefore Hz.
        destruct (filter_first real_positive before after z Hbefore Hz)
          as [rest ->].
        reflexivity.
      * intros Hnone. rewrite (filter_none real_positive _ Hnone). reflexivity.
      * destruct (filter (fun z => real_positive z = true) roots)
          as [|z rest] eqn:Hf.
        -- exists (Number (of_int 0)). split; [reflexivity|].
           split; [reflexivity|]. apply (filter_empty real_positive), Hf.
        -- exists (Element z). split; [reflexivity|].
           apply (filter_head real_positive _ rest), Hf.
Qed.

End RootSelection.

Section RootSelectionExact.
Local Open Scope Q_scope.

(** C2, the reading refuted: whatever the root finder, if it returns an
    array for x^3/3 + x + 1 the length inverse does not signal an error at
    theta = -1 with every other quantity 1, where the cubic is at least 1
    on the positive axis. *)
Lemma C2_counterexample :
  ~ exists np : NumPy Q,
      (exists roots, np [1 # 3; 0; 1; 1] = Ok roots) /\
      signals_without_positive_root np.
Proof.
  intros (np & [roots Hroots] & Hsignals).
  destruct (Hsignals (-1) 1 1 1 1 1 1) as [e He].
  - discriminate.
  - discriminate.
  - exists 1. split; [reflexivity|]. intros x Hx.
    unfold timoshenko_cubic. change (x ^ 3) with (x * (x * x)).
    assert (0 < x * (x * x)).
    { apply Qmult_lt_0_compat; [|apply Qmult_lt_0_compat]; assumption. }
    assert (Hdiv1 : 1 / (3 * 1 * 1) == 1 # 3) by reflexivity.
    assert (Hdiv2 : 1 / (1 * 1 * 1) == 1) by reflexivity.
    rewrite Hdiv1, Hdiv2.
    rewrite Qabs_pos; lra.
  - rewrite (solve_for_L_exact (H := np)) in He by discriminate.
    change (np_roots [1 / (3 * 1 * 1); 0; 1 / (1 * 1 * 1); - -1])
      with (np [1 # 3; 0; 1; 1]) in He.
    rewrite Hroots in He. cbn [bind] in He.
    destruct (filter (fun z => real_positive z = true) roots); discriminate.
Qed.

End RootSelectionExact.

(** ** Binary64: the round trip is not within tolerance for every beam *)

Section Binary64.
Local Open Scope float_scope.

(** C3, refuted on floats: with P = I = L = k = G = A = 1.0 and E = 1e30 the
    bending term is absorbed when it is added to the shear term, the
    deflection is exactly 1.0, and the Young's-modulus inverse divides by
    3 * 1.0 * (1.0 - 1.0). *)
Lemma C3_counterexample : ~ round_trip_E_binary64.
Proof.
  intros Hrt.
  destruct (Hrt 1 1e30 1 1 1 1 1) as (theta & v & Hfwd & Hinv & _);
    try reflexivity.
  vm_compute in Hfwd. injection Hfwd as <-.
  vm_compute in Hinv. discriminate.
Qed.

(** A milder beam, E = 1e10: the inverse returns, 8.3e-8 off in relative
    terms. *)
Lemma round_trip_E_binary64_cancellation :
  exists theta v : float,
    timoshenko_beam_deflection 1 1e10 1 1 1 1 1 = Ok theta /\
    solve_for_E_from_timoshenko theta 1 1 1 1 1 1 = Ok v /\
    v = 9999999172.5963593 /\
    within_tolerance64 v 1e10 = false.
Proof. do 2 eexists. repeat split; vm_compute; reflexivity. Qed.

(** The length inverse on floats: with P = 1e308 and E = I = k = G = A =
    1e-10 both coefficients of the cubic overflow to infinity without an
    error, and the call raises what [np.roots] raises on them. *)
Lemma solve_for_L_overflowing_coefficients (np : NumPy float) :
  rejects_nonfinite np ->
  truediv 1e308 (three * 1e-10 * 1e-10) = Ok infinity /\
  truediv 1e308 (1e-10 * 1e-10 * 1e-10) = Ok infinity /\
  solve_for_L_from_timoshenko (H0 := np) 1 1e308 1e-10 1e-10 1e-10 1e-10 1e-10 =
    Raise LinAlgError.
Proof.
  intros Hnp.
  assert (Hc3 : truediv 1e308 (three * 1e-10 * 1e-10) = Ok infinity)
    by (vm_compute; reflexivity).
  assert (Hc1 : truediv 1e308 (1e-10 * 1e-10 * 1e-10) = Ok infinity)
    by (vm_compute; reflexivity).
  split; [exact Hc3|]. split; [exact Hc1|].
  unfold solve_for_L_from_timoshenko.
  change (mul (mul three 1e-10) 1e-10) with (three * 1e-10 * 1e-10).
  change (mul (mul 1e-10 1e-10) 1e-10) with (1e-10 * 1e-10 * 1e-10).
  rewrite Hc3. cbn [bind]. rewrite Hc1. cbn [bind].
  unfold np_roots. rewrite Hnp; [reflexivity|].
  apply Exists_cons_hd. reflexivity.
Qed.

End Binary64.

(** ** The form validates its numbers before the engine is touched *)

Section GUIFacts.
Context {T : Type}.
Variable float_of_text : string -> option T.
Variable plot_simulation : gmap string T -> string -> nat -> option string.

Lemma get_inputs_stops (input_vars : string -> string) (vars : list string) :
  (exists v, v ∈ vars /\ v <> "theta" /\ float_of_text (input_vars v) = None) ->
  forall inputs,
  exists v,
    v ∈ vars /\ v <> "theta" /\ float_of_text (input_vars v) = None /\
    get_inputs float_of_text input_vars vars inputs = inl v.
Proof.
  induction vars as [|var_name vars IH]; intros (v & Hin & Hv & Hbad) inputs.
  - apply elem_of_nil in Hin as [].
  - simpl. case_bool_decide as Htarget.
    + destruct (float_of_text (input_vars var_name)) as [value|] eqn:Hread.
      * apply elem_of_cons in Hin as [->|Hin]; [congruence|].
        destruct (IH (ex_intro _ v (conj Hin (conj Hv Hbad)))
                     (<[var_name := value]> inputs))
          as (w & Hw & Hwt & Hwbad & Hget).
        exists w. repeat split; try assumption.
        apply list_elem_of_further, Hw.
      * exists var_name. repeat split; try assumption. apply list_elem_of_here.
    + apply elem_of_cons in Hin as [->|Hin]; [contradiction|].
      destruct (IH (ex_intro _ v (conj Hin (conj Hv Hbad))) inputs)
        as (w & Hw & Hwt & Hwbad & Hget).
      exists w. repeat split; try assumption.
      apply list_elem_of_further, Hw.
Qed.

(** C7: when the text of at least one field other than the target is not
    a number, [run_simulation] shows one error dialog that names an
    offending variable and returns: the model is not created and
    [plot_simulation] is not called. *)
Theorem C7_validation_before_engine (input_vars : string -> string) :
  (exists v, v ∈ variables /\ v <> "theta" /\
             float_of_text (input_vars v) = None) ->
  exists v,
    v ∈ variables /\ v <> "theta" /\ float_of_text (input_vars v) = None /\
    run_simulation float_of_text plot_simulation input_vars =
      [Showerror "Error" ("Invalid number for " +:+ v)] /\
    Forall (fun ev => engine_event ev = false)
           (run_simulation float_of_text plot_simulation input_vars).
Proof.
  intros Hbad.
  destruct (get_inputs_stops input_vars variables Hbad ∅)
    as (v & Hin & Hv & Hread & Hget).
  exists v. unfold run_simulation. rewrite Hget.
  repeat split; try assumption. repeat constructor.
Qed.

End GUIFacts.

(** ** Only the eight Timoshenko relations are registered *)

Section OnlyTimoshenko.
Context {T : Type} `{PyNumber T} `{NumPy T} `{Irrational T}.

Lemma beam_relation_arity :
  Forall (fun r : Relation T => arity (rel_fn r) = 7%nat) (relations beam_model).
Proof. repeat constructor. Qed.

Lemma helper_arity :
  Forall (fun f : PyFunction T => (arity f <= 2)%nat) helpers.
Proof. repeat constructor. Qed.

Lemma beam_relation_inputs :
  Forall (fun r : Relation T => Forall (fun i => i ∈ beam_nodes) (rel_inputs r))
         (relations beam_model).
Proof.
  apply (Forall_fmap (fun r : Relation T => rel_inputs r)
           (fun ins => Forall (fun i => i ∈ beam_nodes) ins)).
  apply (bool_decide_unpack _). vm_compute. reflexivity.
Qed.

Lemma beam_step_label (st : Step T) :
  step_of beam_model st ->
  step_relation st ∈ timoshenko_labels /\
  step_output st ∈ beam_nodes /\
  Forall (fun i => i ∈ beam_nodes) (map fst (step_inputs st)).
Proof.
  intros (r & Hr & Hlabel & Hout & Hins).
  rewrite Hlabel, Hout.
  assert (Hall : Forall (fun r : Relation T =>
                           rel_label r ∈ timoshenko_labels /\
                           rel_output r ∈ beam_nodes /\
                           Forall (fun i => i ∈ beam_nodes) (rel_inputs r))
                        (relations beam_model)).
  { apply (Forall_fmap (fun r : Relation T => (rel_label r, rel_inputs r, rel_output r))
             (fun sig => sig.1.1 ∈ timoshenko_labels /\ sig.2 ∈ beam_nodes /\
                         Forall (fun i => i ∈ beam_nodes) sig.1.2)).
    apply (bool_decide_unpack _). vm_compute. reflexivity. }
  rewrite Forall_forall in Hall. destruct (Hall r Hr) as (Hl & Ho & Hi).
  repeat split; try assumption.
  destruct Hins as [rest Hrest]. rewrite Hrest in Hi.
  apply Forall_app in Hi as [Hi _]. exact Hi.
Qed.

(** C10: the returned model holds the eight registered nodes and the
    eight Timoshenko relations and nothing else: none of the nine material
    and geometry helpers is the function of a registered relation, and
    every step of every derivation is a Timoshenko relation between
    registered nodes, so no quantity is ever derived from a radius or from
    Poisson's ratio; whatever else is known, nothing resolves while none of
    the eight registered nodes is known. *)
Theorem C10_only_timoshenko_relations :
  nodes (beam_model (T:=T)) = beam_nodes /\
  length (helpers (T:=T)) = 9%nat /\
  map rel_label (relations (beam_model (T:=T))) = timoshenko_labels /\
  Forall (fun r : Relation T =>
            Forall (fun f => rel_fn r <> f) helpers /\
            Forall (fun i => i ∈ beam_nodes) (rel_inputs r))
         (relations beam_model) /\
  (forall (knowns : gmap string T) target max_depth v trace,
      resolve beam_model knowns target max_depth = Ok (v, trace) ->
      Forall (fun st => step_relation st ∈ timoshenko_labels /\
                        step_output st ∈ beam_nodes /\
                        Forall (fun i => i ∈ beam_nodes) (map fst (step_inputs st)))
             trace) /\
  (forall (knowns : gmap string T) target max_depth,
      Forall (fun n => knowns !! n = None) beam_nodes ->
      target ∈ beam_nodes ->
      resolve beam_model knowns target max_depth =
      Raise (UnresolvedNodeError target)).
Proof.
  split; [reflexivity|]. split; [reflexivity|]. split; [reflexivity|].
  split; [|split].
  - pose proof beam_relation_arity as Har. pose proof helper_arity as Hhelp.
    rewrite Forall_forall in Har. rewrite Forall_forall in Hhelp.
    apply Forall_forall. intros r Hr. split.
    + apply Forall_forall. intros f Hf Heq.
      specialize (Har r Hr). specialize (Hhelp f Hf).
      rewrite Heq in Har. lia.
    + pose proof beam_relation_inputs as Hins.
      rewrite Forall_forall in Hins. apply Hins, Hr.
  - intros knowns target max_depth v trace Hres.
    apply resolve_trace_in in Hres.
    eapply Forall_impl; [exact Hres|]. intros st Hst.
    apply beam_step_label, Hst.
  - intros knowns target max_depth Hnone Htarget.
    rewrite Forall_forall in Hnone.
    apply beam_unresolved; [apply Hnone, Htarget|].
    destruct (decide (target = "theta")) as [->|Hne].
    + exists "area". repeat split; [by apply (bool_decide_unpack _)|discriminate|].
      apply Hnone. by apply (bool_decide_unpack _).
    + exists "theta". repeat split; [by apply (bool_decide_unpack _)|congruence|].
      apply Hnone. by apply (bool_decide_unpack _).
Qed.

End OnlyTimoshenko.

(** ** Worked instances *)

Section Worked.
Local Open Scope Q_scope.

(** The simulation script's beam, at its own depth bound. *)
Lemma C1_witness :
  (1 <= search_depth)%nat /\
  exists theta : Q,
    theta == 409 # 30000 /\
    run_beam_simulation (H := worked_roots) =
    Ok (theta,
        [ {| step_relation := "Timoshenko";
             step_inputs :=
               [("point load", 1000); ("youngs modulus", 200e9);
                ("moment of inertia", 1e-6); ("length", 2.0);
                ("kappa", 5 / 6); ("shear modulus", 80e9); ("area", 1e-4)];
             step_output := "theta";
             step_value := theta |} ]).
Proof.
  assert (Hd : (1 <= search_depth)%nat) by (unfold search_depth; lia).
  split; [exact Hd|].
  destruct (C1_beam_scenario (H := worked_roots) (np64 := empty_table64)
              search_depth Hd) as [(theta & Hfwd & Hval & Hres) _].
  exists theta. split; [|exact Hres].
  rewrite Hval. reflexivity.
Defined.

(** x^3 + x - 10: the deflection 10 of the beam P = 3, E = I = 1, k = 3,
    G = A = 1 gives back the length 2, the third root listed. *)
Lemma C2_witness :
  truediv 3 (three * 1 * 1) = Ok (3 / (3 * 1 * 1)) /\
  truediv 3 (3 * 1 * 1) = Ok (3 / (3 * 1 * 1)) /\
  np_roots (NumPy := worked_roots)
    [3 / (3 * 1 * 1); 0; 3 / (3 * 1 * 1); - 10] =
    Ok [(-1, 2); (-1, -2); (2, 0)] /\
  solve_for_L_from_timoshenko (H0 := worked_roots) 10 3 1 1 3 1 1 =
    Ok (Element (2, 0)).
Proof.
  assert (Hc3 : truediv 3 (three * 1 * 1) = Ok (3 / (3 * 1 * 1)))
    by reflexivity.
  assert (Hc1 : truediv 3 (3 * 1 * 1) = Ok (3 / (3 * 1 * 1))) by reflexivity.
  assert (Hroots : np_roots (NumPy := worked_roots)
                     [3 / (3 * 1 * 1); 0; 3 / (3 * 1 * 1); - 10] =
                   Ok [(-1, 2); (-1, -2); (2, 0)]) by reflexivity.
  split; [exact Hc3|]. split; [exact Hc1|]. split; [exact Hroots|].
  destruct (C2_root_selection (T := Q) (H := Q_number) (H0 := worked_roots)
              10 3 1 1 3 1 1) as (_ & _ & Hselect).
  destruct (Hselect _ _ Hc3 Hc1) as [_ Hreturned].
  destruct (Hreturned _ Hroots) as (Hfirst & _ & _).
  apply (Hfirst [(-1, 2); (-1, -2)] (2, 0) []).
  - reflexivity.
  - repeat constructor.
  - reflexivity.
Defined.

(** The same beam: the deflection of the length 2 is 10, and the element
    [np.roots] lists third is the length. *)
Lemma C3_witness :
  0 < 3 /\ 0 < 1 /\ 0 < 2 /\
  exists theta : Q,
    timoshenko_beam_deflection 3 1 1 2 3 1 1 = Ok theta /\
    recovers (solve_for_P_from_timoshenko theta 1 1 2 3 1 1) 3 /\
    recovers (solve_for_E_from_timoshenko theta 3 1 2 3 1 1) 1 /\
    recovers (solve_for_I_from_timoshenko theta 3 1 2 3 1 1) 1 /\
    recovers (solve_for_k_from_timoshenko theta 3 1 1 2 1 1) 3 /\
    recovers (solve_for_G_from_timoshenko theta 3 1 1 2 3 1) 1 /\
    recovers (solve_for_A_from_timoshenko theta 3 1 1 2 3 1) 1 /\
    solve_for_L_from_timoshenko (H0 := worked_roots) theta 3 1 1 3 1 1 =
      Ok (Element (2, 0)).
Proof.
  split; [reflexivity|]. split; [reflexivity|]. split; [reflexivity|].
  destruct (C3_round_trip_exact (H := worked_roots) 3 1 1 2 3 1 1
              eq_refl eq_refl eq_refl eq_refl eq_refl eq_refl eq_refl)
    as (theta & Hfwd & HP & HE & HI & Hk & HG & HA & _ & Hlength).
  exists theta. repeat (split; [assumption|]).
  assert (Htheta : theta = 90 # 9).
  { vm_compute in Hfwd. injection Hfwd as <-. reflexivity. }
  subst theta.
  destruct (Hlength [(-1, 2); (-1, -2); (2, 0)] eq_refl) as [Hfirst _].
  apply (Hfirst [(-1, 2); (-1, -2)] (2, 0) []).
  - reflexivity.
  - repeat constructor.
  - reflexivity.
Defined.

(** A beam whose deflection is all bending (theta = 3*1^3/(3*1*1) = 1):
    the kappa inverse divides by zero, and resolving kappa reports it
    unresolved. *)
Lemma C5_witness :
  solve_for_k_from_timoshenko 1 3 1 1 1 1 1 = Raise ZeroDivisionError /\
  resolve (beam_model (H0 := worked_roots))
    (<["theta" := 1]> (<["point load" := 3]> (<["youngs modulus" := 1]>
     (<["moment of inertia" := 1]> (<["length" := 1]>
     (<["shear modulus" := 1]> (<["area" := 1]> ∅)))))))
    "kappa" search_depth = Raise (UnresolvedNodeError "kappa").
Proof.
  destruct (C5_inverse_singularities (H := worked_roots)
              (np64 := empty_table64) 1 3 1 1 1 1 1 1)
    as (Hk & _ & _ & _ & _ & _ & _ & Hfold & _).
  assert (Hraise : solve_for_k_from_timoshenko 1 3 1 1 1 1 1 =
                   Raise ZeroDivisionError).
  { destruct Hk as [[_ Hr]|[Hns _]]; [exact Hr|].
    exfalso. apply Hns. do 4 right. reflexivity. }
  split; [exact Hraise|].
  apply (Hfold
           {| rel_inputs := ["theta"; "point load"; "youngs modulus";
                             "moment of inertia"; "length"; "shear modulus"; "area"];
              rel_output := "kappa";
              rel_fn := def 7 solve_for_k_from_timoshenko;
              rel_label := "Timoshenko->k" |}
           _ [1; 3; 1; 1; 1; 1; 1] ZeroDivisionError).
  - do 5 apply list_elem_of_further. apply list_elem_of_here.
  - reflexivity.
  - repeat constructor.
  - exact Hraise.
Defined.

(** Nothing known at all. *)
Lemma C4_witness :
  (∅ : gmap string Q) !! "theta" = None /\
  resolve (beam_model (H0 := worked_roots)) ∅ "theta" search_depth =
  Raise (UnresolvedNodeError "theta").
Proof.
  assert (Hnone : (∅ : gmap string Q) !! "theta" = None) by apply lookup_empty.
  split; [exact Hnone|].
  apply (C4_cycle_safety (H0 := worked_roots) ∅ "theta" Hnone).
  exists "area". split; [|split; [discriminate|apply lookup_empty]].
  do 5 apply list_elem_of_further. apply list_elem_of_here.
Defined.

Example run_simulation_area_mistyped :
  run_simulation read_unsigned (fun _ _ _ => None) area_mistyped =
    [Showerror "Error" "Invalid number for area"].
Proof. reflexivity. Qed.

Lemma C7_witness :
  (exists v, v ∈ variables /\ v <> "theta" /\
             read_unsigned (area_mistyped v) = None) /\
  exists v,
    v ∈ variables /\ v <> "theta" /\ read_unsigned (area_mistyped v) = None /\
    run_simulation read_unsigned (fun _ _ _ => None) area_mistyped =
      [Showerror "Error" ("Invalid number for " +:+ v)] /\
    Forall (fun ev => engine_event ev = false)
           (run_simulation read_unsigned (fun _ _ _ => None) area_mistyped).
Proof.
  assert (Hbad : exists v, v ∈ variables /\ v <> "theta" /\
                           read_unsigned (area_mistyped v) = None).
  { exists "area". split; [|split; [discriminate|reflexivity]].
    do 5 apply list_elem_of_further. apply list_elem_of_here. }
  split; [exact Hbad|].
  exact (C7_validation_before_engine read_unsigned (fun _ _ _ => None)
           area_mistyped Hbad).
Defined.

End Worked.

(** ** The toggle switch *)

Section Switch.
Local Open Scope Z_scope.

(** A switch that has been drawn: its canvas is the rendering of its
    state. *)
Lemma draw_switch_canvas (self : ToggleSwitch) :
  canvas (draw_switch self) = rendering (width self) (height self) (state self).
Proof. reflexivity. Qed.

Lemma toggle_fields (self : ToggleSwitch) :
  width (toggle self) = width self /\
  height (toggle self) = height self /\
  command (toggle self) = command self /\
  state (toggle self) = negb (state self) /\
  canvas (toggle self) = rendering (width self) (height self) (negb (state self)) /\
  called (toggle self) =
    (called self ++ if command self then [negb (state self)] else [])%list.
Proof.
  unfold toggle. destruct self as [cmd w h on items log].
  destruct cmd; simpl; repeat split; try reflexivity.
  symmetry. apply app_nil_r.
Qed.

Lemma set_state_fields (self : ToggleSwitch) (b : bool) :
  width (set_state self b) = width self /\
  height (set_state self b) = height self /\
  command (set_state self b) = command self /\
  state (set_state self b) = b /\
  canvas (set_state self b) = rendering (width self) (height self) b /\
  called (set_state self b) = called self.
Proof. repeat split; reflexivity. Qed.

Lemma perform_from (self : ToggleSwitch) (actions : list SwitchAction) :
  canvas self = rendering (width self) (height self) (state self) ->
  let final := perform self actions in
  width final = width self /\
  height final = height self /\
  command final = command self /\
  state final = final_state (state self) actions /\
  canvas final = rendering (width self) (height self) (state final) /\
  called final =
    (called self ++ if command self then click_log (state self) actions else [])%list.
Proof.
  revert self. induction actions as [|a actions IH]; intros self Hdrawn.
  - simpl. repeat split; try reflexivity; [exact Hdrawn|].
    destruct (command self); symmetry; apply app_nil_r.
  - change (perform self (a :: actions)) with (perform (act self a) actions).
    destruct a as [|b]; cbn [act final_state click_log].
    + destruct (toggle_fields self) as (Hw & Hh & Hc & Hs & Hcv & Hcl).
      destruct (IH (toggle self)) as (Hw' & Hh' & Hc' & Hs' & Hcv' & Hcl').
      { rewrite Hcv, Hw, Hh, Hs. reflexivity. }
      cbv zeta. rewrite Hw', Hh', Hc', Hs', Hcv', Hcl', Hw, Hh, Hc, Hs, Hcl.
      repeat split; rewrite ?Hs', ?Hs; try reflexivity.
      destruct (command self); rewrite <- app_assoc; reflexivity.
    + destruct (set_state_fields self b) as (Hw & Hh & Hc & Hs & Hcv & Hcl).
      destruct (IH (set_state self b)) as (Hw' & Hh' & Hc' & Hs' & Hcv' & Hcl').
      { rewrite Hcv, Hw, Hh, Hs. reflexivity. }
      cbv zeta. rewrite Hw', Hh', Hc', Hs', Hcv', Hcl', Hw, Hh, Hc, Hs, Hcl.
      repeat split; rewrite ?Hs', ?Hs; reflexivity.
Qed.

(** X1: whatever is done to a switch, clicks and programmatic settings in
    any order, its canvas holds exactly two items, the track and the knob
    of its current state: nothing accumulates, and the track is green
    exactly when the switch is on. *)
Theorem switch_canvas_shows_state (w h : Z) (cmd : bool)
    (actions : list SwitchAction) :
  let final := perform (new_switch w h cmd) actions in
  canvas final = rendering w h (get_state final) /\
  get_state final = final_state false actions /\
  width final = w /\ height final = h.
Proof.
  destruct (perform_from (new_switch w h cmd) actions eq_refl)
    as (Hw & Hh & _ & Hs & Hcv & _).
  simpl. repeat split; assumption.
Qed.

(** X2: the callback hears every click, with the state the click produced,
    and nothing else: [set_state] never calls it, and a switch made without
    a callback calls nothing. *)
Theorem switch_callback_log (w h : Z) (cmd : bool) (actions : list SwitchAction) :
  called (perform (new_switch w h cmd) actions) =
  if cmd then click_log false actions else [].
Proof.
  destruct (perform_from (new_switch w h cmd) actions eq_refl)
    as (_ & _ & _ & _ & _ & Hcl).
  exact Hcl.
Qed.

Lemma final_state_clicks (on : bool) (n : nat) :
  final_state on (repeat Click n) = if Nat.odd n then negb on else on.
Proof.
  revert on. induction n as [|n IH]; intros on; [reflexivity|].
  change (repeat Click (S n)) with (Click :: repeat Click n).
  simpl final_state. rewrite IH. rewrite Nat.odd_succ, <- Nat.negb_odd.
  destruct (Nat.odd n), on; reflexivity.
Qed.

(** X3: a new switch is off, and after [n] clicks it is on exactly when [n]
    is odd; two clicks in a row leave any drawn switch showing what it
    showed. *)
Theorem switch_click_parity (w h : Z) (cmd : bool) (n : nat) :
  get_state (new_switch w h cmd) = false /\
  get_state (perform (new_switch w h cmd) (repeat Click n)) = Nat.odd n /\
  forall actions,
    let self := perform (new_switch w h cmd) actions in
    get_state (toggle (toggle self)) = get_state self /\
    canvas (toggle (toggle self)) = canvas self.
Proof.
  split; [reflexivity|]. split.
  - destruct (perform_from (new_switch w h cmd) (repeat Click n) eq_refl)
      as (_ & _ & _ & Hs & _ & _).
    unfold get_state. rewrite Hs, final_state_clicks.
    destruct (Nat.odd n); reflexivity.
  - intros actions self.
    destruct (perform_from (new_switch w h cmd) actions eq_refl)
      as (Hw & Hh & _ & _ & Hcv & _).
    fold self in Hw, Hh, Hcv. simpl in Hw, Hh.
    destruct (toggle_fields self) as (Hw1 & Hh1 & _ & Hs1 & _ & _).
    destruct (toggle_fields (toggle self)) as (_ & _ & _ & Hs2 & Hcv2 & _).
    unfold get_state. rewrite Hs2, Hcv2, Hs1, Hw1, Hh1, Hcv, Hw, Hh.
    rewrite Bool.negb_involutive. split; reflexivity.
Qed.

(** X4: the twelve control points of a rounded rectangle lie inside the
    rectangle exactly when the radius is non-negative and no larger than
    its width and its height. *)
Theorem rounded_rect_within_iff (x1 y1 x2 y2 radius : Z) :
  length (rounded_rect_points x1 y1 x2 y2 radius) = 24%nat /\
  (item_within x1 y1 x2 y2
     (Polygon (rounded_rect_points x1 y1 x2 y2 radius) "" "" true) <->
   0 <= radius <= x2 - x1 /\ radius <= y2 - y1).
Proof.
  split; [reflexivity|]. simpl. rewrite !Forall_cons, !Forall_nil. lia.
Qed.

(** X5: on a switch at least 28 wide and 17 high, whatever is done to it,
    the track and the knob are drawn inside the rectangle inset by 2 from
    the canvas edges, the knob never leaving the track's box. *)
Theorem switch_drawn_within (w h : Z) (cmd : bool) (actions : list SwitchAction) :
  28 <= w -> 17 <= h ->
  Forall (item_within 2 2 (w - 2) (h - 2))
         (canvas (perform (new_switch w h cmd) actions)).
Proof.
  intros Hw Hh.
  destruct (perform_from (new_switch w h cmd) actions eq_refl)
    as (_ & _ & _ & _ & Hcv & _).
  rewrite Hcv. simpl width. simpl height.
  generalize (state (perform (new_switch w h cmd) actions)). intros on.
  unfold rendering. repeat constructor; simpl;
    try (rewrite !Forall_cons, !Forall_nil); destruct on; lia.
Qed.

(** The default switch, 60 by 30, clicked twice and then set on. *)
Lemma switch_drawn_within_witness :
  28 <= 60 /\ 17 <= 30 /\
  Forall (item_within 2 2 (60 - 2) (30 - 2))
         (canvas (perform (new_switch 60 30 true) [Click; Click; SetState true])).
Proof.
  assert (Hw : 28 <= 60) by lia. assert (Hh : 17 <= 30) by lia.
  split; [exact Hw|]. split; [exact Hh|].
  exact (switch_drawn_within 60 30 true [Click; Click; SetState true] Hw Hh).
Defined.

End Switch.

(** ** The form: what is read, what is passed on, what is shown *)

Section GUIRun.
Context {T : Type}.
Variable float_of_text : string -> option T.
Variable plot_simulation : gmap string T -> string -> nat -> option string.

Lemma get_inputs_all_read (input_vars : string -> string) (vars : list string) :
  (forall v, v ∈ vars -> v <> "theta" -> is_Some (float_of_text (input_vars v))) ->
  forall acc,
  exists inputs,
    get_inputs float_of_text input_vars vars acc = inr inputs /\
    forall v, inputs !! v =
              if decide (v ∈ vars /\ v <> "theta")
              then float_of_text (input_vars v) else acc !! v.
Proof.
  induction vars as [|var_name vars IH]; intros Hall acc.
  - exists acc. split; [reflexivity|]. intros v.
    case_decide as Hv; [|reflexivity]. destruct Hv as [Hin _].
    apply elem_of_nil in Hin as [].
  - assert (Hall' : forall v, v ∈ vars -> v <> "theta" ->
                              is_Some (float_of_text (input_vars v))).
    { intros v Hv. apply Hall, list_elem_of_further, Hv. }
    simpl. case_bool_decide as Htarget.
    + destruct (Hall var_name (list_elem_of_here _ _) Htarget) as [value Hread].
      rewrite Hread.
      destruct (IH Hall' (<[var_name := value]> acc)) as (inputs & Hget & Hlook).
      exists inputs. split; [exact Hget|]. intros v. rewrite Hlook.
      case_decide as Hv; case_decide as Hv'; try reflexivity.
      * exfalso. apply Hv'. split; [apply list_elem_of_further|]; apply Hv.
      * destruct Hv' as [Hin Hne]. apply elem_of_cons in Hin as [->|Hin].
        -- rewrite lookup_insert_eq. symmetry. exact Hread.
        -- exfalso. apply Hv. split; assumption.
      * rewrite lookup_insert_ne; [reflexivity|].
        intros <-. apply Hv'. split; [apply list_elem_of_here|exact Htarget].
    + destruct (IH Hall' acc) as (inputs & Hget & Hlook).
      exists inputs. split; [exact Hget|]. intros v. rewrite Hlook.
      case_decide as Hv; case_decide as Hv'; try reflexivity.
      * exfalso. apply Hv'. split; [apply list_elem_of_further|]; apply Hv.
      * destruct Hv' as [Hin Hne]. apply elem_of_cons in Hin as [->|Hin].
        -- exfalso. apply Hne. exact Htarget.
        -- exfalso. apply Hv. split; assumption.
Qed.

(** X6: when the seven fields other than the target all hold numbers, the
    dictionary handed to [plot_simulation] has exactly those seven keys,
    each with the number read from its field, and no entry for [theta]; the
    model is created and [plot_simulation] is called once, for the target
    [theta] at depth 1000, after the two status updates. *)
Theorem run_simulation_passes_inputs (input_vars : string -> string) :
  (forall v, v ∈ variables -> v <> "theta" ->
             is_Some (float_of_text (input_vars v))) ->
  exists inputs : gmap string T,
    (forall v, v ∈ variables -> v <> "theta" ->
               inputs !! v = float_of_text (input_vars v)) /\
    (forall v, v ∉ variables \/ v = "theta" -> inputs !! v = None) /\
    run_simulation float_of_text plot_simulation input_vars =
      [StatusConfig "Creating beam model..."; RootUpdate; CreateBeamModel;
       StatusConfig "Running simulation..."; RootUpdate;
       PlotSimulation inputs "theta" 1000] ++
      match plot_simulation inputs "theta" 1000 with
      | None => [StatusConfig "Beam simulation completed!"]
      | Some message =>
          [Showerror "Error" ("Simulation failed: " +:+ message);
           StatusConfig "Simulation failed"]
      end.
Proof.
  intros Hall.
  destruct (get_inputs_all_read input_vars variables Hall ∅)
    as (inputs & Hget & Hlook).
  exists inputs. split; [|split].
  - intros v Hin Hne. rewrite Hlook. rewrite decide_True; [reflexivity|].
    split; assumption.
  - intros v Hv. rewrite Hlook. rewrite decide_False; [apply lookup_empty|].
    intros [Hin Hne]. destruct Hv as [Hv|Hv]; contradiction.
  - unfold run_simulation. rewrite Hget. reflexivity.
Qed.

Lemma get_inputs_first_bad (input_vars : string -> string)
    (before after : list string) (bad : string) :
  (forall v, v ∈ before -> v <> "theta" -> is_Some (float_of_text (input_vars v))) ->
  bad <> "theta" -> float_of_text (input_vars bad) = None ->
  forall acc,
    get_inputs float_of_text input_vars (before ++ bad :: after) acc = inl bad.
Proof.
  intros Hbefore Hbad Hread. induction before as [|v before IH]; intros acc.
  - simpl. rewrite bool_decide_eq_true_2 by exact Hbad. rewrite Hread. reflexivity.
  - assert (Hbefore' : forall u, u ∈ before -> u <> "theta" ->
                                 is_Some (float_of_text (input_vars u))).
    { intros u Hu. apply Hbefore, list_elem_of_further, Hu. }
    simpl. case_bool_decide as Htarget.
    + destruct (Hbefore v (list_elem_of_here _ _) Htarget) as [value ->].
      apply IH, Hbefore'.
    + apply IH, Hbefore'.
Qed.

(** X7: the error dialog names the first field, in the order of the form,
    whose text is not a number; the fields after it are not looked at, and
    it is the only event of the run. *)
Theorem run_simulation_names_first (input_vars : string -> string)
    (before after : list string) (bad : string) :
  variables = (before ++ bad :: after)%list ->
  (forall v, v ∈ before -> v <> "theta" -> is_Some (float_of_text (input_vars v))) ->
  bad <> "theta" -> float_of_text (input_vars bad) = None ->
  run_simulation float_of_text plot_simulation input_vars =
    [Showerror "Error" ("Invalid number for " +:+ bad)].
Proof.
  intros Hvars Hbefore Hbad Hread. unfold run_simulation.
  rewrite Hvars, (get_inputs_first_bad input_vars before after bad Hbefore Hbad Hread).
  reflexivity.
Qed.

Lemma get_inputs_ext (input_vars input_vars' : string -> string)
    (vars : list string) :
  (forall v, v <> "theta" -> input_vars v = input_vars' v) ->
  forall acc,
    get_inputs float_of_text input_vars vars acc =
    get_inputs float_of_text input_vars' vars acc.
Proof.
  intros Hsame. induction vars as [|v vars IH]; intros acc; [reflexivity|].
  simpl. case_bool_decide as Htarget; [|apply IH].
  rewrite <- (Hsame v Htarget).
  destruct (float_of_text (input_vars v)); [apply IH|reflexivity].
Qed.

(** X8: the text of the [theta] field is never read: two forms that differ
    only there run the same, so a target field left empty, as it is by
    default, or filled with anything at all, changes nothing. *)
Theorem run_simulation_ignores_target (input_vars input_vars' : string -> string) :
  (forall v, v <> "theta" -> input_vars v = input_vars' v) ->
  run_simulation float_of_text plot_simulation input_vars =
  run_simulation float_of_text plot_simulation input_vars'.
Proof.
  intros Hsame. unfold run_simulation.
  rewrite (get_inputs_ext input_vars input_vars' variables Hsame ∅). reflexivity.
Qed.

(** X9: every run shows at most one error dialog and calls
    [plot_simulation] at most once; it reports "Beam simulation completed!"
    exactly when it showed no dialog, and then [plot_simulation] was
    called. *)
Theorem run_simulation_one_outcome (input_vars : string -> string) :
  let events := run_simulation float_of_text plot_simulation input_vars in
  (length (List.filter is_dialog events) <= 1)%nat /\
  (length (List.filter is_plot events) <= 1)%nat /\
  (existsb is_completed events = negb (existsb is_dialog events)) /\
  (existsb is_completed events = true -> existsb is_plot events = true).
Proof.
  unfold run_simulation.
  destruct (get_inputs float_of_text input_vars variables ∅) as [bad|inputs].
  - simpl. repeat split; try lia; try reflexivity; discriminate.
  - destruct (plot_simulation inputs "theta" 1000%nat) as [message|];
      simpl; repeat split; try lia; reflexivity.
Qed.

End GUIRun.

(** ** The beam equation in exact arithmetic: domain, inverses, roots *)

Section BeamEquation.
Local Open Scope Q_scope.

Ltac divide :=
  first [ rewrite Q_truediv_ok by assumption
        | rewrite Q_truediv_zero by assumption ];
  cbn [bind].

Lemma timoshenko_spec (P E I L k G A : Q) :
  raises_iff (timoshenko_beam_deflection P E I L k G A)
    (E == 0 \/ I == 0 \/ k == 0 \/ G == 0 \/ A == 0)
    (bending P E I L + shear P L k G A).
Proof.
  unfold raises_iff.
  change (timoshenko_beam_deflection P E I L k G A)
    with (bind (pow L 3) (fun L3 =>
          bind (truediv (P * L3) (3 * E * I)) (fun b =>
          bind (truediv (P * L) (k * G * A)) (fun s => Ok (b + s))))).
  rewrite Q_pow3. cbn [bind].
  destruct (Q_truediv_cases (P * L ^ 3) (3 * E * I)) as [[Hz ->]|[Hnz ->]];
    cbn [bind].
  - left. split; [|reflexivity]. apply three_times_eq0 in Hz. tauto.
  - rewrite three_times_eq0 in Hnz.
    destruct (Q_truediv_cases (P * L) (k * G * A)) as [[Hz ->]|[Hnz' ->]];
      cbn [bind].
    + left. split; [|reflexivity]. apply Qmult3_eq0 in Hz. tauto.
    + right. rewrite Qmult3_eq0 in Hnz'. split; [tauto|reflexivity].
Qed.

(** X10: the forward relation divides by zero exactly when one of the
    stiffness quantities [E], [I], [k], [G], [A] is zero, whatever the load
    and the length; everywhere else it returns bending plus shear. *)
Theorem timoshenko_domain (P E I L k G A : Q) :
  raises_iff (timoshenko_beam_deflection P E I L k G A)
    (E == 0 \/ I == 0 \/ k == 0 \/ G == 0 \/ A == 0)
    (bending P E I L + shear P L k G A).
Proof. apply timoshenko_spec. Qed.

Lemma solve_for_P_spec (theta E I L k G A : Q) :
  raises_iff (solve_for_P_from_timoshenko theta E I L k G A)
    (E == 0 \/ I == 0 \/ k == 0 \/ G == 0 \/ A == 0 \/
     L ^ 3 / (3 * E * I) + L / (k * G * A) == 0)
    (theta / (L ^ 3 / (3 * E * I) + L / (k * G * A))).
Proof.
  unfold raises_iff.
  change (solve_for_P_from_timoshenko theta E I L k G A)
    with (bind (pow L 3) (fun L3 =>
          bind (truediv L3 (3 * E * I)) (fun b =>
          bind (truediv L (k * G * A)) (fun s => truediv theta (b + s))))).
  rewrite Q_pow3. cbn [bind].
  destruct (Q_truediv_cases (L ^ 3) (3 * E * I)) as [[Hz ->]|[Hnz ->]];
    cbn [bind].
  - left. split; [|reflexivity]. apply three_times_eq0 in Hz. tauto.
  - rewrite three_times_eq0 in Hnz.
    destruct (Q_truediv_cases L (k * G * A)) as [[Hz ->]|[Hnz' ->]];
      cbn [bind].
    + left. split; [|reflexivity]. apply Qmult3_eq0 in Hz. tauto.
    + rewrite Qmult3_eq0 in Hnz'.
      destruct (Q_truediv_cases theta (L ^ 3 / (3 * E * I) + L / (k * G * A)))
        as [[Hz ->]|[Hnz'' ->]].
      * left. split; [tauto|reflexivity].
      * right. split; [tauto|reflexivity].
Qed.

(** X11: the load inverse divides by zero when a stiffness quantity is zero
    or the compliance [L^3/(3*E*I) + L/(k*G*A)] is; for positive stiffness
    quantities that is exactly the beam of length zero, whatever the
    deflection. *)
Theorem solve_for_P_domain (theta E I L k G A : Q) :
  raises_iff (solve_for_P_from_timoshenko theta E I L k G A)
    (E == 0 \/ I == 0 \/ k == 0 \/ G == 0 \/ A == 0 \/
     L ^ 3 / (3 * E * I) + L / (k * G * A) == 0)
    (theta / (L ^ 3 / (3 * E * I) + L / (k * G * A))) /\
  (0 < E -> 0 < I -> 0 < k -> 0 < G -> 0 < A ->
   (solve_for_P_from_timoshenko theta E I L k G A = Raise ZeroDivisionError
    <-> L == 0)).
Proof.
  split; [apply solve_for_P_spec|].
  intros HE HI Hk HG HA.
  pose proof (bending_divisor_pos E I HE HI) as Hdb.
  pose proof (shear_divisor_pos k G A Hk HG HA) as Hds.
  assert (Hfac : L ^ 3 / (3 * E * I) + L / (k * G * A) ==
                 L * (L * L / (3 * E * I) + 1 / (k * G * A))).
  { change (L ^ 3) with (L * (L * L)). field. split; lra. }
  assert (Hpos : 0 < L * L / (3 * E * I) + 1 / (k * G * A)).
  { assert (0 <= L * L / (3 * E * I)).
    { apply Qle_shift_div_l; [exact Hdb|]. nra. }
    assert (0 < 1 / (k * G * A)) by (apply Qlt_shift_div_l; lra). lra. }
  destruct (solve_for_P_spec theta E I L k G A) as [[Hsing Hr]|[Hns Hr]];
    rewrite Hr; split; intros Hx; try reflexivity; try discriminate.
  - destruct Hsing as [H0|[H0|[H0|[H0|[H0|H0]]]]]; try lra.
    rewrite Hfac in H0. apply Qmult_integral in H0 as [H0|H0]; lra.
  - exfalso. apply Hns. do 5 right. rewrite Hfac, Hx. ring.
Qed.

Lemma Qdiv_neq0 (a b : Q) : ~ a == 0 -> ~ b == 0 -> ~ a / b == 0.
Proof.
  intros Ha Hb Hq. apply Ha.
  assert (Hab : a == a / b * b) by (field; exact Hb).
  rewrite Hab, Hq. ring.
Qed.

Lemma Qdiv_eq0 (a b : Q) : a == 0 -> a / b == 0.
Proof. intros Ha. unfold Qdiv. rewrite Ha. ring. Qed.

Lemma cube_neq0 (L : Q) : ~ L == 0 -> ~ L ^ 3 == 0.
Proof.
  intros HL H3. change (L ^ 3) with (L * (L * L)) in H3.
  apply Qmult_integral in H3 as [H3|H3]; [contradiction|].
  apply Qmult_integral in H3 as [H3|H3]; contradiction.
Qed.

Lemma cross_multiply (theta n d : Q) :
  ~ d == 0 -> (theta * d - n == 0 <-> theta == n / d).
Proof.
  intros Hd. split; intros Hx.
  - assert (Ht : theta == theta * d / d) by (field; exact Hd).
    rewrite Ht. assert (Hn : theta * d == n) by lra.
    rewrite Hn. reflexivity.
  - rewrite Hx. field. exact Hd.
Qed.

Lemma cross_shear (theta P L k G A : Q) :
  ~ k * G * A == 0 ->
  (theta * (k * G * A) - P * L == 0 <-> theta == shear P L k G A).
Proof. apply cross_multiply. Qed.

Lemma cross_bending (theta P E I L : Q) :
  ~ 3 * E * I == 0 ->
  (theta * (3 * E * I) - P * L ^ 3 == 0 <-> theta == bending P E I L).
Proof. apply cross_multiply. Qed.

(** What an inverse on the bending side returns satisfies the equation. *)
Lemma bending_side_satisfies (theta P x L k G A v : Q) :
  ~ P == 0 -> ~ L == 0 ->
  ~ k == 0 -> ~ G == 0 -> ~ A == 0 -> ~ x == 0 -> ~ theta == shear P L k G A ->
  v = P * L ^ 3 / (3 * x * (theta - shear P L k G A)) ->
  ~ v == 0 /\
  P * L ^ 3 / (3 * v * x) + shear P L k G A == theta.
Proof.
  intros HP HL Hk HG HA Hx Hns ->.
  assert (Hd : ~ k * G * A == 0) by (rewrite Qmult3_eq0; tauto).
  assert (Hcross : ~ theta * (k * G * A) - P * L == 0)
    by (rewrite cross_shear; assumption).
  assert (Hden : ~ 3 * x * (theta - shear P L k G A) == 0).
  { rewrite Qmult3_eq0, Qminus_eq0. intros [H3|[H0|H0]];
      [discriminate H3|contradiction|contradiction]. }
  assert (Hnum : ~ P * L ^ 3 == 0).
  { intros H0. apply Qmult_integral in H0 as [H0|H0]; [contradiction|].
    apply (cube_neq0 L HL H0). }
  split; [apply Qdiv_neq0; assumption|].
  unfold shear in *. field. repeat split; assumption.
Qed.

(** What an inverse on the shear side returns satisfies the equation. *)
Lemma shear_side_satisfies (theta P E I L x y v : Q) :
  ~ P == 0 -> ~ L == 0 ->
  ~ E == 0 -> ~ I == 0 -> ~ x == 0 -> ~ y == 0 -> ~ theta == bending P E I L ->
  v = P * L / (x * y * (theta - bending P E I L)) ->
  ~ v == 0 /\
  bending P E I L + P * L / (v * x * y) == theta.
Proof.
  intros HP HL HE HI Hx Hy Hns ->.
  assert (Hd : ~ 3 * E * I == 0) by (rewrite three_times_eq0; tauto).
  assert (Hcross : ~ theta * (3 * E * I) - P * L ^ 3 == 0)
    by (rewrite cross_bending; assumption).
  assert (Hden : ~ x * y * (theta - bending P E I L) == 0).
  { rewrite Qmult3_eq0, Qminus_eq0. tauto. }
  assert (Hnum : ~ P * L == 0).
  { intros H0. apply Qmult_integral in H0 as [H0|H0]; contradiction. }
  split; [apply Qdiv_neq0; assumption|].
  unfold bending in *. field. repeat split; assumption.
Qed.

Ltac restate Hr f :=
  match type of Hr with
  | _ = ?rhs =>
      let Hf := fresh in
      assert (Hf : f = rhs) by exact Hr; clear Hr; rename Hf into Hr
  end.

Lemma Ok_inj (a b : Q) : Ok a = Ok b -> a = b.
Proof. intros Hab. injection Hab as ->. reflexivity. Qed.

Lemma forward_at (P E I L k G A theta : Q) :
  ~ E == 0 -> ~ I == 0 -> ~ k == 0 -> ~ G == 0 -> ~ A == 0 ->
  bending P E I L + shear P L k G A == theta ->
  exists t, timoshenko_beam_deflection P E I L k G A = Ok t /\ t == theta.
Proof.
  intros HE HI Hk HG HA Heq. eexists. split; [|exact Heq].
  apply timoshenko_beam_deflection_ok.
  - rewrite three_times_eq0. tauto.
  - rewrite Qmult3_eq0. tauto.
Qed.

(** X12: what an inverse returns satisfies the beam equation.  The load
    the load inverse returns, put back into the forward relation with the
    same other six quantities, gives the deflection it was computed from;
    so do the modulus, inertia, kappa, shear modulus and area that their
    inverses return, for a beam with a load and a length that are not
    zero. *)
Theorem inverse_satisfies_equation (theta P E I L k G A v : Q) :
  (solve_for_P_from_timoshenko theta E I L k G A = Ok v ->
   exists t, timoshenko_beam_deflection v E I L k G A = Ok t /\ t == theta) /\
  (~ P == 0 -> ~ L == 0 ->
   (solve_for_E_from_timoshenko theta P I L k G A = Ok v ->
    exists t, timoshenko_beam_deflection P v I L k G A = Ok t /\ t == theta) /\
   (solve_for_I_from_timoshenko theta P E L k G A = Ok v ->
    exists t, timoshenko_beam_deflection P E v L k G A = Ok t /\ t == theta) /\
   (solve_for_k_from_timoshenko theta P E I L G A = Ok v ->
    exists t, timoshenko_beam_deflection P E I L v G A = Ok t /\ t == theta) /\
   (solve_for_G_from_timoshenko theta P E I L k A = Ok v ->
    exists t, timoshenko_beam_deflection P E I L k v A = Ok t /\ t == theta) /\
   (solve_for_A_from_timoshenko theta P E I L k G = Ok v ->
    exists t, timoshenko_beam_deflection P E I L k G v = Ok t /\ t == theta)).
Proof.
  split; [|intros HP HL; repeat split]; intros Hinv.
  - destruct (solve_for_P_spec theta E I L k G A) as [[_ Hr]|[Hns Hr]];
      rewrite Hr in Hinv; [discriminate|]. apply Ok_inj in Hinv. subst v.
    apply forward_at; try tauto.
    assert (Hb : ~ 3 * E * I == 0) by (rewrite three_times_eq0; tauto).
    assert (Hs : ~ k * G * A == 0) by (rewrite Qmult3_eq0; tauto).
    assert (Hc : ~ L ^ 3 / (3 * E * I) + L / (k * G * A) == 0) by tauto.
    set (c := L ^ 3 / (3 * E * I) + L / (k * G * A)) in *.
    assert (Hsum : forall p, bending p E I L + shear p L k G A == p * c).
    { intros p. unfold bending, shear, c.
      unfold Qdiv. ring. }
    rewrite Hsum. field. exact Hc.
  - destruct (bending_side_spec theta P I L k G A _ eq_refl)
      as [[_ Hr]|[Hns Hr]];
      restate Hr (solve_for_E_from_timoshenko theta P I L k G A);
      rewrite Hr in Hinv; [discriminate|].
    apply Ok_inj in Hinv. symmetry in Hinv.
    destruct (bending_side_satisfies theta P I L k G A v) as [Hv0 Heq];
      try tauto.
    apply forward_at; try tauto.
    all: rewrite <- Heq; reflexivity.
  - destruct (bending_side_spec theta P E L k G A _ eq_refl)
      as [[_ Hr]|[Hns Hr]];
      restate Hr (solve_for_I_from_timoshenko theta P E L k G A);
      rewrite Hr in Hinv; [discriminate|].
    apply Ok_inj in Hinv. symmetry in Hinv.
    destruct (bending_side_satisfies theta P E L k G A v) as [Hv0 Heq];
      try tauto.
    apply forward_at; try tauto.
    all: rewrite <- Heq; unfold bending.
    all: assert (Hc : 3 * E * v == 3 * v * E) by ring; rewrite Hc; reflexivity.
  - destruct (shear_side_spec theta P E I L G A _ eq_refl)
      as [[_ Hr]|[Hns Hr]];
      restate Hr (solve_for_k_from_timoshenko theta P E I L G A);
      rewrite Hr in Hinv; [discriminate|].
    apply Ok_inj in Hinv. symmetry in Hinv.
    destruct (shear_side_satisfies theta P E I L G A v) as [Hv0 Heq];
      try tauto.
    apply forward_at; try tauto.
    all: rewrite <- Heq; reflexivity.
  - destruct (shear_side_spec theta P E I L k A _ eq_refl)
      as [[_ Hr]|[Hns Hr]];
      restate Hr (solve_for_G_from_timoshenko theta P E I L k A);
      rewrite Hr in Hinv; [discriminate|].
    apply Ok_inj in Hinv. symmetry in Hinv.
    destruct (shear_side_satisfies theta P E I L k A v) as [Hv0 Heq];
      try tauto.
    apply forward_at; try tauto.
    all: rewrite <- Heq; unfold shear.
    all: assert (Hc : k * v * A == v * k * A) by ring; rewrite Hc; reflexivity.
  - destruct (shear_side_spec theta P E I L k G _ eq_refl)
      as [[_ Hr]|[Hns Hr]];
      restate Hr (solve_for_A_from_timoshenko theta P E I L k G);
      rewrite Hr in Hinv; [discriminate|].
    apply Ok_inj in Hinv. symmetry in Hinv.
    destruct (shear_side_satisfies theta P E I L k G v) as [Hv0 Heq];
      try tauto.
    apply forward_at; try tauto.
    all: rewrite <- Heq; unfold shear.
    all: assert (Hc : k * G * v == v * k * G) by ring; rewrite Hc; reflexivity.
Qed.


Lemma square_nonneg (a : Q) : 0 <= a * a.
Proof.
  destruct (Qlt_le_dec a 0) as [Hneg|Hpos].
  - assert (Hopp : 0 <= (- a) * (- a)) by (apply Qmult_le_0_compat; lra).
    lra.
  - apply Qmult_le_0_compat; assumption.
Qed.

Lemma squares_nonneg (x y : Q) : 0 <= x * x + x * y + y * y.
Proof.
  pose proof (square_nonneg (x + y)) as H1.
  pose proof (square_nonneg x) as H2.
  pose proof (square_nonneg y) as H3.
  lra.
Qed.

Lemma cubic_injective (c3 c1 theta x y : Q) :
  0 < c3 -> 0 < c1 ->
  timoshenko_cubic c3 c1 theta x == 0 ->
  timoshenko_cubic c3 c1 theta y == 0 ->
  x == y.
Proof.
  intros Hc3 Hc1 Hx Hy. unfold timoshenko_cubic in *.
  change (x ^ 3) with (x * (x * x)) in Hx.
  change (y ^ 3) with (y * (y * y)) in Hy.
  pose proof (squares_nonneg x y) as Hsq.
  assert (Hq : 0 < c3 * (x * x + x * y + y * y) + c1).
  { assert (0 <= c3 * (x * x + x * y + y * y))
      by (apply Qmult_le_0_compat; lra). lra. }
  assert (Hfac : (x - y) * (c3 * (x * x + x * y + y * y) + c1) == 0) by lra.
  apply Qmult_integral in Hfac as [Hd|Hd]; lra.
Qed.

Lemma cubic_root_sign (c3 c1 theta x : Q) :
  0 < c3 -> 0 < c1 -> 0 < x ->
  timoshenko_cubic c3 c1 theta x == 0 -> 0 < theta.
Proof.
  intros Hc3 Hc1 Hx Hroot. unfold timoshenko_cubic in Hroot.
  change (x ^ 3) with (x * (x * x)) in Hroot.
  assert (0 < x * x) by (apply Qmult_lt_0_compat; assumption).
  assert (0 < x * (x * x)) by (apply Qmult_lt_0_compat; assumption).
  assert (0 < c3 * (x * (x * x))) by (apply Qmult_lt_0_compat; assumption).
  assert (0 < c1 * x) by (apply Qmult_lt_0_compat; assumption).
  lra.
Qed.

Context `{NumPy Q}.

(** X14: for positive load and stiffness the cubic of the length inverse
    has a single real root, so the order in which [np.roots] lists the
    roots is immaterial: if the real positive entries of the array it
    returns are roots, they all equal the length returned; and for a
    deflection that is not positive there is none, and what is returned is
    the 0 of the [else] branch. *)
Theorem solve_for_L_order_immaterial (theta P E I k G A : Q)
    (roots : list (Q * Q)) :
  0 < P -> 0 < E -> 0 < I -> 0 < k -> 0 < G -> 0 < A ->
  np_roots [P / (3 * E * I); 0; P / (k * G * A); - theta] = Ok roots ->
  (forall z, z ∈ roots ->
             real_positive z = true ->
             timoshenko_cubic (P / (3 * E * I)) (P / (k * G * A)) theta (fst z) == 0) ->
  exists v,
    solve_for_L_from_timoshenko theta P E I k G A = Ok v /\
    (forall z, z ∈ roots -> real_positive z = true -> fst z == stored v) /\
    (theta <= 0 -> v = Number 0).
Proof.
  intros HP HE HI Hk HG HA Hroots Hsound.
  pose proof (bending_divisor_pos E I HE HI) as Hdb.
  pose proof (shear_divisor_pos k G A Hk HG HA) as Hds.
  assert (Hc3 : 0 < P / (3 * E * I)) by (apply Qlt_shift_div_l; lra).
  assert (Hc1 : 0 < P / (k * G * A)) by (apply Qlt_shift_div_l; lra).
  rewrite solve_for_L_exact by lra. rewrite Hroots. cbn [bind].
  destruct (filter (fun z => real_positive z = true) roots) as [|z0 rest] eqn:Hf.
  - exists (Number 0). split; [reflexivity|]. split; [|reflexivity].
    intros z Hz Hrp. exfalso.
    assert (Hin : z ∈ filter (fun z => real_positive z = true) roots)
      by (apply list_elem_of_filter; split; assumption).
    rewrite Hf in Hin. apply elem_of_nil in Hin as [].
  - assert (Hz0 : z0 ∈ filter (fun z => real_positive z = true) roots)
      by (rewrite Hf; apply list_elem_of_here).
    apply list_elem_of_filter in Hz0 as [Hz0rp Hz0in].
    exists (Element z0). split; [reflexivity|]. split.
    + intros z Hz Hrp. cbn [stored].
      apply (cubic_injective (P / (3 * E * I)) (P / (k * G * A)) theta);
        auto.
    + intros Hle. exfalso.
      pose proof Hz0rp as Hpos. apply real_positive_Q in Hpos as [_ Hpos].
      pose proof (cubic_root_sign _ _ theta (fst z0) Hc3 Hc1 Hpos
                    (Hsound z0 Hz0in Hz0rp)).
      lra.
Qed.

(** The deflection of a beam with positive quantities, and what the six
    rational inverses make of it. *)
Lemma inverses_recover (P E I L k G A : Q) :
  0 < P -> 0 < E -> 0 < I -> 0 < L -> 0 < k -> 0 < G -> 0 < A ->
  timoshenko_beam_deflection P E I L k G A =
    Ok (bending P E I L + shear P L k G A) /\
  recovers (solve_for_P_from_timoshenko
              (bending P E I L + shear P L k G A) E I L k G A) P /\
  recovers (solve_for_E_from_timoshenko
              (bending P E I L + shear P L k G A) P I L k G A) E /\
  recovers (solve_for_I_from_timoshenko
              (bending P E I L + shear P L k G A) P E L k G A) I /\
  recovers (solve_for_k_from_timoshenko
              (bending P E I L + shear P L k G A) P E I L G A) k /\
  recovers (solve_for_G_from_timoshenko
              (bending P E I L + shear P L k G A) P E I L k A) G /\
  recovers (solve_for_A_from_timoshenko
              (bending P E I L + shear P L k G A) P E I L k G) A.
Proof.
  intros HP HE HI HL Hk HG HA.
  pose proof (bending_divisor_pos E I HE HI) as Hdb.
  pose proof (shear_divisor_pos k G A Hk HG HA) as Hds.
  pose proof (cube_pos L HL) as HL3.
  pose proof (bending_pos P E I L HP HE HI HL) as Hb.
  pose proof (shear_pos P L k G A HP HL Hk HG HA) as Hs.
  assert (HPL3 : 0 < P * L ^ 3) by (apply Qmult_lt_0_compat; assumption).
  assert (HPL : 0 < P * L) by (apply Qmult_lt_0_compat; assumption).
  assert (Hx1 : 0 < P * L ^ 3 * (k * G * A)) by (apply Qmult_lt_0_compat; assumption).
  assert (Hx2 : 0 < P * L * (3 * E * I)) by (apply Qmult_lt_0_compat; assumption).
  assert (Hx3 : 0 < L ^ 3 * (k * G * A)) by (apply Qmult_lt_0_compat; assumption).
  assert (Hx4 : 0 < L * (3 * E * I)) by (apply Qmult_lt_0_compat; assumption).
  split; [apply timoshenko_beam_deflection_ok; lra|].
  split; [|split; [|split; [|split; [|split]]]].
  - (* P *)
    assert (Hsum : 0 < L ^ 3 / (3 * E * I) + L / (k * G * A)).
    { assert (0 < L ^ 3 / (3 * E * I)) by (apply Qlt_shift_div_l; lra).
      assert (0 < L / (k * G * A)) by (apply Qlt_shift_div_l; lra). lra. }
    assert (Hn1 : ~ 3 * E * I == 0) by lra.
    assert (Hn2 : ~ k * G * A == 0) by lra.
    assert (Hn3 : ~ L ^ 3 / (3 * E * I) + L / (k * G * A) == 0) by lra.
    eapply recovers_intro.
    + unfold solve_for_P_from_timoshenko. rewrite Q_pow3.
      cbn [bind]. do 2 divide. apply Q_truediv_ok. assumption.
    + change ((bending P E I L + shear P L k G A) /
                (L ^ 3 / (3 * E * I) + L / (k * G * A)) == P).
      unfold bending, shear. field. repeat split; lra.
  - (* E *)
    destruct (bending_side_spec (bending P E I L + shear P L k G A) P I L k G A _ eq_refl)
      as [[Hsing _]|[_ Hok]]; [lra|].
    eapply recovers_intro; [exact Hok|].
    unfold bending, shear. field. repeat split; lra.
  - (* I *)
    destruct (bending_side_spec (bending P E I L + shear P L k G A) P E L k G A _ eq_refl)
      as [[Hsing _]|[_ Hok]]; [lra|].
    eapply recovers_intro; [exact Hok|].
    unfold bending, shear. field. repeat split; lra.
  - (* k *)
    destruct (shear_side_spec (bending P E I L + shear P L k G A) P E I L G A _ eq_refl)
      as [[Hsing _]|[_ Hok]]; [lra|].
    eapply recovers_intro; [exact Hok|].
    unfold bending, shear. field. repeat split; lra.
  - (* G *)
    destruct (shear_side_spec (bending P E I L + shear P L k G A) P E I L k A _ eq_refl)
      as [[Hsing _]|[_ Hok]]; [lra|].
    eapply recovers_intro; [exact Hok|].
    unfold bending, shear. field. repeat split; lra.
  - (* A *)
    destruct (shear_side_spec (bending P E I L + shear P L k G A) P E I L k G _ eq_refl)
      as [[Hsing _]|[_ Hok]]; [lra|].
    eapply recovers_intro; [exact Hok|].
    unfold bending, shear. field. repeat split; lra.
Qed.

(** X15: for positive quantities the deflection is positive and grows
    strictly with the length of the beam, every other quantity held
    fixed. *)
Theorem deflection_grows_with_length (P E I k G A L1 L2 : Q) :
  0 < P -> 0 < E -> 0 < I -> 0 < k -> 0 < G -> 0 < A ->
  0 < L1 -> L1 < L2 ->
  exists t1 t2,
    timoshenko_beam_deflection P E I L1 k G A = Ok t1 /\
    timoshenko_beam_deflection P E I L2 k G A = Ok t2 /\
    0 < t1 /\ t1 < t2.
Proof.
  intros HP HE HI Hk HG HA HL1 HL12.
  pose proof (bending_divisor_pos E I HE HI) as Hdb.
  pose proof (shear_divisor_pos k G A Hk HG HA) as Hds.
  assert (HL2 : 0 < L2) by lra.
  exists (bending P E I L1 + shear P L1 k G A),
         (bending P E I L2 + shear P L2 k G A).
  split; [apply timoshenko_beam_deflection_ok; lra|].
  split; [apply timoshenko_beam_deflection_ok; lra|].
  pose proof (bending_pos P E I L1 HP HE HI HL1) as Hb1.
  pose proof (shear_pos P L1 k G A HP HL1 Hk HG HA) as Hs1.
  split; [lra|].
  assert (Hcube : L1 ^ 3 < L2 ^ 3).
  { change (L1 ^ 3) with (L1 * (L1 * L1)). change (L2 ^ 3) with (L2 * (L2 * L2)).
    assert (H11 : 0 < L1 * L1) by (apply Qmult_lt_0_compat; assumption).
    assert (H12 : 0 < L1 * L2) by (apply Qmult_lt_0_compat; assumption).
    assert (H22 : 0 < L2 * L2) by (apply Qmult_lt_0_compat; assumption).
    assert (Hd : 0 < (L2 - L1) * (L2 * L2 + L1 * L2 + L1 * L1))
      by (apply Qmult_lt_0_compat; lra).
    lra. }
  assert (Hb : bending P E I L1 < bending P E I L2).
  { unfold bending. apply Qlt_shift_div_l; [exact Hdb|].
    assert (Hx : P * L1 ^ 3 / (3 * E * I) * (3 * E * I) == P * L1 ^ 3)
      by (field; lra).
    rewrite Hx. apply Qmult_lt_l; assumption. }
  assert (Hs : shear P L1 k G A < shear P L2 k G A).
  { unfold shear. apply Qlt_shift_div_l; [exact Hds|].
    assert (Hx : P * L1 / (k * G * A) * (k * G * A) == P * L1)
      by (field; lra).
    rewrite Hx. apply Qmult_lt_l; assumption. }
  lra.
Qed.

Lemma beam_model_relations :
  relations beam_model =
  [ {| rel_inputs := ["point load"; "youngs modulus"; "moment of inertia";
                      "length"; "kappa"; "shear modulus"; "area"];
       rel_output := "theta";
       rel_fn := def 7 timoshenko_beam_deflection;
       rel_label := "Timoshenko" |};
    {| rel_inputs := ["theta"; "youngs modulus"; "moment of inertia";
                      "length"; "kappa"; "shear modulus"; "area"];
       rel_output := "point load";
       rel_fn := def 7 solve_for_P_from_timoshenko;
       rel_label := "Timoshenko->P" |};
    {| rel_inputs := ["theta"; "point load"; "moment of inertia";
                      "length"; "kappa"; "shear modulus"; "area"];
       rel_output := "youngs modulus";
       rel_fn := def 7 solve_for_E_from_timoshenko;
       rel_label := "Timoshenko->E" |};
    {| rel_inputs := ["theta"; "point load"; "youngs modulus";
                      "length"; "kappa"; "shear modulus"; "area"];
       rel_output := "moment of inertia";
       rel_fn := def 7 solve_for_I_from_timoshenko;
       rel_label := "Timoshenko->I" |};
    {| rel_inputs := ["theta"; "point load"; "youngs modulus";
                      "moment of inertia"; "kappa"; "shear modulus"; "area"];
       rel_output := "length";
       rel_fn := def 7 (fun theta P E I k G A =>
                          bind (solve_for_L_from_timoshenko theta P E I k G A)
                               (fun v => Ok (stored v)));
       rel_label := "Timoshenko->L" |};
    {| rel_inputs := ["theta"; "point load"; "youngs modulus";
                      "moment of inertia"; "length"; "shear modulus"; "area"];
       rel_output := "kappa";
       rel_fn := def 7 solve_for_k_from_timoshenko;
       rel_label := "Timoshenko->k" |};
    {| rel_inputs := ["theta"; "point load"; "youngs modulus";
                      "moment of inertia"; "length"; "kappa"; "area"];
       rel_output := "shear modulus";
       rel_fn := def 7 solve_for_G_from_timoshenko;
       rel_label := "Timoshenko->G" |};
    {| rel_inputs := ["theta"; "point load"; "youngs modulus";
                      "moment of inertia"; "length"; "kappa"; "shear modulus"];
       rel_output := "area";
       rel_fn := def 7 solve_for_A_from_timoshenko;
       rel_label := "Timoshenko->A" |} ].
Proof. reflexivity. Qed.

Lemma resolve_one_unknown (full : gmap string Q) (r : Relation Q)
    (rest : list (Relation Q)) (args : list Q) (x : Q) (max_depth : nat) :
  relations_for beam_model (rel_output r) = r :: rest ->
  Forall2 (fun n a => delete (rel_output r) full !! n = Some a)
          (rel_inputs r) args ->
  recovers (call (rel_fn r) args) x ->
  (1 <= max_depth)%nat ->
  exists v steps,
    resolve beam_model (delete (rel_output r) full) (rel_output r) max_depth =
      Ok (v, steps) /\
    v == x /\ map step_relation steps = [rel_label r].
Proof.
  intros Hrels Hargs (v & Hcall & Hv & _) Hd.
  exists v. eexists. split; [|split; [exact Hv|]].
  - apply (resolve_direct beam_model _ _ r rest args v); try assumption.
    + apply lookup_delete_eq.
    + reflexivity.
  - reflexivity.
Qed.

(** X16: the model works in every rational direction.  Take a beam with
    positive quantities and its deflection; leave out any one quantity but
    the length; then, at any depth bound of at least one, the quantity left
    out resolves from the other seven in a single step, by the relation
    registered for it, to the value it had: each edge lists its inputs in
    the order of its function's parameters. *)
Theorem every_direction_resolves (P E I L k G A : Q) (max_depth : nat) :
  0 < P -> 0 < E -> 0 < I -> 0 < L -> 0 < k -> 0 < G -> 0 < A ->
  (1 <= max_depth)%nat ->
  Forall (fun r : Relation Q =>
            rel_output r = "length" \/
            exists v steps x,
              beam_assignment P k E I G A L
                (bending P E I L + shear P L k G A) !! rel_output r = Some x /\
              resolve beam_model
                (delete (rel_output r)
                   (beam_assignment P k E I G A L
                      (bending P E I L + shear P L k G A)))
                (rel_output r) max_depth = Ok (v, steps) /\
              v == x /\ map step_relation steps = [rel_label r])
         (relations beam_model).
Proof.
  intros HP HE HI HL Hk HG HA Hd.
  destruct (inverses_recover P E I L k G A HP HE HI HL Hk HG HA)
    as (Hfwd & HrP & HrE & HrI & Hrk & HrG & HrA).
  set (theta := bending P E I L + shear P L k G A) in *.
  set (full := beam_assignment P k E I G A L theta).
  assert (Hrfwd : recovers (timoshenko_beam_deflection P E I L k G A) theta).
  { apply (recovers_intro _ theta); [exact Hfwd|reflexivity]. }
  rewrite beam_model_relations.
  repeat apply Forall_cons_2; try apply Forall_nil_2.
  5: left; reflexivity.
  all: right.
  - destruct (resolve_one_unknown full
                {| rel_inputs := ["point load"; "youngs modulus";
                                  "moment of inertia"; "length"; "kappa";
                                  "shear modulus"; "area"];
                   rel_output := "theta";
                   rel_fn := def 7 timoshenko_beam_deflection;
                   rel_label := "Timoshenko" |} []
                [P; E; I; L; k; G; A] theta max_depth)
      as (v & steps & Hres & Hv & Hsteps);
      [reflexivity|repeat constructor|exact Hrfwd|exact Hd|].
    exists v, steps, theta. repeat split; assumption.
  - destruct (resolve_one_unknown full
                {| rel_inputs := ["theta"; "youngs modulus";
                                  "moment of inertia"; "length"; "kappa";
                                  "shear modulus"; "area"];
                   rel_output := "point load";
                   rel_fn := def 7 solve_for_P_from_timoshenko;
                   rel_label := "Timoshenko->P" |} []
                [theta; E; I; L; k; G; A] P max_depth)
      as (v & steps & Hres & Hv & Hsteps);
      [reflexivity|repeat constructor|exact HrP|exact Hd|].
    exists v, steps, P. repeat split; assumption.
  - destruct (resolve_one_unknown full
                {| rel_inputs := ["theta"; "point load";
                                  "moment of inertia"; "length"; "kappa";
                                  "shear modulus"; "area"];
                   rel_output := "youngs modulus";
                   rel_fn := def 7 solve_for_E_from_timoshenko;
                   rel_label := "Timoshenko->E" |} []
                [theta; P; I; L; k; G; A] E max_depth)
      as (v & steps & Hres & Hv & Hsteps);
      [reflexivity|repeat constructor|exact HrE|exact Hd|].
    exists v, steps, E. repeat split; assumption.
  - destruct (resolve_one_unknown full
                {| rel_inputs := ["theta"; "point load";
                                  "youngs modulus"; "length"; "kappa";
                                  "shear modulus"; "area"];
                   rel_output := "moment of inertia";
                   rel_fn := def 7 solve_for_I_from_timoshenko;
                   rel_label := "Timoshenko->I" |} []
                [theta; P; E; L; k; G; A] I max_depth)
      as (v & steps & Hres & Hv & Hsteps);
      [reflexivity|repeat constructor|exact HrI|exact Hd|].
    exists v, steps, I. repeat split; assumption.
  - destruct (resolve_one_unknown full
                {| rel_inputs := ["theta"; "point load"; "youngs modulus";
                                  "moment of inertia"; "length";
                                  "shear modulus"; "area"];
                   rel_output := "kappa";
                   rel_fn := def 7 solve_for_k_from_timoshenko;
                   rel_label := "Timoshenko->k" |} []
                [theta; P; E; I; L; G; A] k max_depth)
      as (v & steps & Hres & Hv & Hsteps);
      [reflexivity|repeat constructor|exact Hrk|exact Hd|].
    exists v, steps, k. repeat split; assumption.
  - destruct (resolve_one_unknown full
                {| rel_inputs := ["theta"; "point load"; "youngs modulus";
                                  "moment of inertia"; "length";
                                  "kappa"; "area"];
                   rel_output := "shear modulus";
                   rel_fn := def 7 solve_for_G_from_timoshenko;
                   rel_label := "Timoshenko->G" |} []
                [theta; P; E; I; L; k; A] G max_depth)
      as (v & steps & Hres & Hv & Hsteps);
      [reflexivity|repeat constructor|exact HrG|exact Hd|].
    exists v, steps, G. repeat split; assumption.
  - destruct (resolve_one_unknown full
                {| rel_inputs := ["theta"; "point load"; "youngs modulus";
                                  "moment of inertia"; "length";
                                  "kappa"; "shear modulus"];
                   rel_output := "area";
                   rel_fn := def 7 solve_for_A_from_timoshenko;
                   rel_label := "Timoshenko->A" |} []
                [theta; P; E; I; L; k; G] A max_depth)
      as (v & steps & Hres & Hv & Hsteps);
      [reflexivity|repeat constructor|exact HrA|exact Hd|].
    exists v, steps, A. repeat split; assumption.
Qed.

End BeamEquation.

(** ** From the form to the forward relation *)

Section GUIEngine.
Context {T : Type} `{PyNumber T} `{NumPy T}.
Variable float_of_text : string -> option T.

(** X17: the numbers typed into the form reach the forward relation in its
    own parameter order.  When the seven fields read as [P], [k], [E], [I],
    [G], [A], [L] and [timoshenko_beam_deflection(P, E, I, L, k, G, A)]
    returns a finite value, the dictionary the form builds resolves [theta],
    at any depth bound of at least one, to that value by the single
    Timoshenko step. *)
Theorem form_reaches_forward_relation (input_vars : string -> string)
    (P k E I G A L v : T) (max_depth : nat) :
  float_of_text (input_vars "point load") = Some P ->
  float_of_text (input_vars "kappa") = Some k ->
  float_of_text (input_vars "youngs modulus") = Some E ->
  float_of_text (input_vars "moment of inertia") = Some I ->
  float_of_text (input_vars "shear modulus") = Some G ->
  float_of_text (input_vars "area") = Some A ->
  float_of_text (input_vars "length") = Some L ->
  timoshenko_beam_deflection P E I L k G A = Ok v ->
  isfinite v = true ->
  (1 <= max_depth)%nat ->
  exists inputs : gmap string T,
    get_inputs float_of_text input_vars variables ∅ = inr inputs /\
    resolve beam_model inputs "theta" max_depth =
    Ok (v, [ {| step_relation := "Timoshenko";
                step_inputs :=
                  [("point load", P); ("youngs modulus", E);
                   ("moment of inertia", I); ("length", L); ("kappa", k);
                   ("shear modulus", G); ("area", A)];
                step_output := "theta";
                step_value := v |} ]).
Proof.
  intros HP Hk HE HI HG HA HL Hfwd Hfin Hd.
  destruct (get_inputs_all_read float_of_text input_vars variables) with (acc := (∅ : gmap string T))
    as (inputs & Hget & Hlook).
  { intros u Hu Hne. unfold variables in Hu.
    rewrite !elem_of_cons, elem_of_nil in Hu.
    destruct Hu as [->|[->|[->|[->|[->|[->|[->|[->|[]]]]]]]]];
      try (eexists; eassumption); contradiction. }
  exists inputs. split; [exact Hget|].
  assert (Hknown : forall u x, u ∈ variables -> u <> "theta" ->
                               float_of_text (input_vars u) = Some x ->
                               inputs !! u = Some x).
  { intros u x Hu Hne Hread. rewrite Hlook, decide_True; [exact Hread|].
    split; assumption. }
  assert (Hin : forall u, bool_decide (u ∈ variables) = true -> u ∈ variables).
  { intros u. apply bool_decide_eq_true_1. }
  apply (resolve_direct beam_model inputs "theta"
           {| rel_inputs := ["point load"; "youngs modulus"; "moment of inertia";
                             "length"; "kappa"; "shear modulus"; "area"];
              rel_output := "theta";
              rel_fn := def 7 timoshenko_beam_deflection;
              rel_label := "Timoshenko" |} []
           [P; E; I; L; k; G; A]); try assumption.
  - rewrite Hlook, decide_False; [apply lookup_empty|]. intros [_ Hne].
    apply Hne. reflexivity.
  - reflexivity.
  - repeat constructor; apply Hknown; try discriminate; try assumption;
      apply Hin; reflexivity.
Qed.

End GUIEngine.

(** ** The material and geometry helpers *)

Section Helpers.
Local Open Scope Q_scope.

Lemma shear_modulus_spec (E V : Q) :
  raises_iff (shear_modulus_from_elastic_poisson E V) (V == -1)
             (E / (2 * (1 + V))).
Proof.
  unfold raises_iff.
  change (shear_modulus_from_elastic_poisson E V)
    with (truediv E (2 * (1 + V))).
  destruct (Q_truediv_cases E (2 * (1 + V))) as [[Hz ->]|[Hnz ->]].
  - left. split; [lra|reflexivity].
  - right. split; [|reflexivity]. intros HV. apply Hnz. rewrite HV. reflexivity.
Qed.

(** X18: the three material helpers agree with one another.  The shear
    modulus is undefined exactly at a Poisson ratio of -1; everywhere else
    the Young's modulus computed back from the shear modulus and the ratio is
    the one started from, and, for a modulus that is not zero, so is the
    Poisson ratio computed back from the two moduli. *)
Theorem material_helpers_agree (E V : Q) :
  raises_iff (shear_modulus_from_elastic_poisson E V) (V == -1)
             (E / (2 * (1 + V))) /\
  (forall G, shear_modulus_from_elastic_poisson E V = Ok G ->
     recovers (elastic_modulus_from_shear_poisson G V) E /\
     (~ E == 0 -> recovers (poisson_from_elastic_shear E G) V) /\
     (E == 0 -> poisson_from_elastic_shear E G = Raise ZeroDivisionError)).
Proof.
  split; [apply shear_modulus_spec|]. intros G HG.
  destruct (shear_modulus_spec E V) as [[_ Hr]|[HV Hr]];
    rewrite Hr in HG; [discriminate|]. apply Ok_inj in HG. subst G.
  assert (Hd : ~ 2 * (1 + V) == 0) by (intros H0; apply HV; lra).
  split; [|split].
  - apply (recovers_intro _ (2 * (E / (2 * (1 + V))) * (1 + V))); [reflexivity|].
    field. intros H0. apply HV. lra.
  - intros HE.
    assert (HG : ~ 2 * (E / (2 * (1 + V))) == 0).
    { intros H0. apply (Qdiv_neq0 E (2 * (1 + V)) HE Hd). lra. }
    apply (recovers_intro _ (E / (2 * (E / (2 * (1 + V)))) - 1)).
    + change (poisson_from_elastic_shear E (E / (2 * (1 + V))))
        with (bind (truediv E (2 * (E / (2 * (1 + V)))))
                   (fun q => Ok (q - 1))).
      rewrite Q_truediv_ok by exact HG. reflexivity.
    + field. repeat split; first [exact HE | intros H0; apply HV; lra].
  - intros HE.
    change (poisson_from_elastic_shear E (E / (2 * (1 + V))))
      with (bind (truediv E (2 * (E / (2 * (1 + V)))))
                 (fun q => Ok (q - 1))).
    rewrite Q_truediv_zero; [reflexivity|].
    rewrite (Qdiv_eq0 E (2 * (1 + V)) HE). reflexivity.
Qed.

Context `{Irrational Q}.

(** X19: the geometry helpers agree on the circle, whatever nonzero value
    stands for pi: the moment of inertia computed from the area of a circle
    of radius [r] is the one computed from the radius itself. *)
Theorem inertia_from_area_of_circle (radius : Q) :
  ~ np_pi == 0 ->
  exists A I_area I_radius,
    area_from_radius radius = Ok A /\
    moment_of_inertia_from_area A = Ok I_area /\
    moment_of_inertia_from_radius radius = Ok I_radius /\
    I_area == I_radius.
Proof.
  intros Hpi.
  assert (H4 : ~ 4 * np_pi == 0).
  { intros H0. apply Hpi. lra. }
  exists (np_pi * radius ^ 2),
         ((np_pi * radius ^ 2) ^ 2 / (4 * np_pi)),
         (np_pi / 4 * radius ^ 4).
  split; [reflexivity|]. split; [|split].
  - change (moment_of_inertia_from_area (np_pi * radius ^ 2))
      with (bind (Ok ((np_pi * radius ^ 2) ^ 2))
                 (fun a2 => truediv a2 (4 * np_pi))).
    cbn [bind]. apply Q_truediv_ok. exact H4.
  - change (moment_of_inertia_from_radius radius)
      with (bind (truediv np_pi 4) (fun c =>
            bind (Ok (radius ^ 4)) (fun r4 => Ok (c * r4)))).
    rewrite Q_truediv_ok by discriminate. reflexivity.
  - field. exact Hpi.
Qed.

End Helpers.

(** ** Further worked instances *)

Section WorkedMore.
Local Open Scope Q_scope.

(** Every field holds "1000". *)
Lemma run_simulation_passes_inputs_witness :
  (forall v, v ∈ variables -> v <> "theta" ->
             is_Some (read_unsigned ((fun _ => "1000") v))) /\
  exists inputs : gmap string Q,
    (forall v, v ∈ variables -> v <> "theta" ->
               inputs !! v = read_unsigned ((fun _ => "1000") v)) /\
    (forall v, v ∉ variables \/ v = "theta" -> inputs !! v = None) /\
    run_simulation read_unsigned (fun _ _ _ => None) (fun _ => "1000") =
      [StatusConfig "Creating beam model..."; RootUpdate; CreateBeamModel;
       StatusConfig "Running simulation..."; RootUpdate;
       PlotSimulation inputs "theta" 1000] ++
      match (fun _ _ _ => None) inputs "theta" 1000%nat with
      | None => [StatusConfig "Beam simulation completed!"]
      | Some message =>
          [Showerror "Error" ("Simulation failed: " +:+ message);
           StatusConfig "Simulation failed"]
      end.
Proof.
  assert (Hall : forall v, v ∈ variables -> v <> "theta" ->
                           is_Some (read_unsigned ((fun _ => "1000") v))).
  { intros v _ _. eexists. reflexivity. }
  split; [exact Hall|].
  exact (run_simulation_passes_inputs read_unsigned (fun _ _ _ => None)
           (fun _ => "1000") Hall).
Defined.

(** Two fields are wrong, kappa (empty) and area ("abc"): the dialog names
    kappa, which comes first. *)
Lemma run_simulation_names_first_witness :
  variables = (["point load"] ++
               "kappa" :: ["youngs modulus"; "moment of inertia";
                           "shear modulus"; "area"; "length"; "theta"])%list /\
  read_unsigned (two_mistyped "kappa") = None /\
  read_unsigned (two_mistyped "area") = None /\
  run_simulation read_unsigned (fun _ _ _ => None) two_mistyped =
    [Showerror "Error" ("Invalid number for " +:+ "kappa")].
Proof.
  split; [reflexivity|]. split; [reflexivity|]. split; [reflexivity|].
  apply (run_simulation_names_first read_unsigned (fun _ _ _ => None)
           two_mistyped ["point load"] _ "kappa" eq_refl).
  - intros v Hv _. apply list_elem_of_singleton in Hv as ->.
    eexists. reflexivity.
  - discriminate.
  - reflexivity.
Defined.

Lemma run_simulation_ignores_target_witness :
  (forall v, v <> "theta" ->
     area_mistyped v =
     (fun v => if String.eqb v "theta" then "12 apples" else area_mistyped v) v) /\
  run_simulation read_unsigned (fun _ _ _ => None) area_mistyped =
  run_simulation read_unsigned (fun _ _ _ => None)
    (fun v => if String.eqb v "theta" then "12 apples" else area_mistyped v).
Proof.
  assert (Hsame : forall v, v <> "theta" ->
            area_mistyped v =
            (fun v => if String.eqb v "theta" then "12 apples"
                      else area_mistyped v) v).
  { intros v Hv. cbv beta. destruct (String.eqb_spec v "theta"); [contradiction|].
    reflexivity. }
  split; [exact Hsame|].
  exact (run_simulation_ignores_target read_unsigned (fun _ _ _ => None)
           area_mistyped _ Hsame).
Defined.


(** x^3 + x - 10 again: the one real positive entry listed is the root 2. *)
Lemma solve_for_L_order_immaterial_witness :
  0 < 3 /\ 0 < 1 /\
  np_roots (NumPy := worked_roots)
    [3 / (3 * 1 * 1); 0; 3 / (3 * 1 * 1); - 10] =
    Ok [(-1, 2); (-1, -2); (2, 0)] /\
  exists v,
    solve_for_L_from_timoshenko (H0 := worked_roots) 10 3 1 1 3 1 1 = Ok v /\
    (forall z, z ∈ [(-1, 2); (-1, -2); (2, 0)] ->
               real_positive z = true -> fst z == stored v) /\
    (10 <= 0 -> v = Number 0).
Proof.
  split; [reflexivity|]. split; [reflexivity|]. split; [reflexivity|].
  apply (solve_for_L_order_immaterial (H := worked_roots) 10 3 1 1 3 1 1);
    try reflexivity.
  intros z Hz Hrp.
  rewrite !elem_of_cons, elem_of_nil in Hz.
  destruct Hz as [->|[->|[->|[]]]]; try discriminate Hrp. reflexivity.
Defined.

Lemma deflection_grows_with_length_witness :
  0 < 1 /\ 1 < 2 /\
  exists t1 t2,
    timoshenko_beam_deflection 1 1 1 1 1 1 1 = Ok t1 /\
    timoshenko_beam_deflection 1 1 1 2 1 1 1 = Ok t2 /\
    0 < t1 /\ t1 < t2.
Proof.
  split; [reflexivity|]. split; [reflexivity|].
  exact (deflection_grows_with_length 1 1 1 1 1 1 1 2
           eq_refl eq_refl eq_refl eq_refl eq_refl eq_refl eq_refl eq_refl).
Defined.

Lemma every_direction_resolves_witness :
  0 < 3 /\ 0 < 1 /\ 0 < 2 /\ (1 <= search_depth)%nat /\
  Forall (fun r : Relation Q =>
            rel_output r = "length" \/
            exists v steps x,
              beam_assignment 3 3 1 1 1 1 2
                (bending 3 1 1 2 + shear 3 2 3 1 1) !! rel_output r = Some x /\
              resolve (beam_model (H0 := worked_roots))
                (delete (rel_output r)
                   (beam_assignment 3 3 1 1 1 1 2
                      (bending 3 1 1 2 + shear 3 2 3 1 1)))
                (rel_output r) search_depth = Ok (v, steps) /\
              v == x /\ map step_relation steps = [rel_label r])
         (relations (beam_model (H0 := worked_roots))).
Proof.
  assert (Hd : (1 <= search_depth)%nat) by (unfold search_depth; lia).
  split; [reflexivity|]. split; [reflexivity|]. split; [reflexivity|].
  split; [exact Hd|].
  exact (every_direction_resolves (H := worked_roots) 3 1 1 2 3 1 1 search_depth
           eq_refl eq_refl eq_refl eq_refl eq_refl eq_refl eq_refl Hd).
Defined.

(** The form with "1000" in every field, at the depth the form uses. *)
Lemma form_reaches_forward_relation_witness :
  read_unsigned ((fun _ => "1000") "point load") = Some 1000 /\
  timoshenko_beam_deflection 1000 1000 1000 1000 1000 1000 1000 =
    Ok (bending 1000 1000 1000 1000 + shear 1000 1000 1000 1000 1000) /\
  exists inputs : gmap string Q,
    get_inputs read_unsigned (fun _ => "1000") variables ∅ = inr inputs /\
    resolve (beam_model (H0 := worked_roots)) inputs "theta" 1000 =
    Ok (bending 1000 1000 1000 1000 + shear 1000 1000 1000 1000 1000,
        [ {| step_relation := "Timoshenko";
             step_inputs :=
               [("point load", 1000); ("youngs modulus", 1000);
                ("moment of inertia", 1000); ("length", 1000); ("kappa", 1000);
                ("shear modulus", 1000); ("area", 1000)];
             step_output := "theta";
             step_value :=
               bending 1000 1000 1000 1000 + shear 1000 1000 1000 1000 1000 |} ]).
Proof.
  assert (Hread : read_unsigned ((fun _ : string => "1000") "point load") = Some 1000)
    by reflexivity.
  assert (Hfwd : timoshenko_beam_deflection 1000 1000 1000 1000 1000 1000 1000 =
                 Ok (bending 1000 1000 1000 1000 + shear 1000 1000 1000 1000 1000))
    by reflexivity.
  split; [exact Hread|]. split; [exact Hfwd|].
  apply (form_reaches_forward_relation (T := Q) (H := Q_number)
           (H0 := worked_roots) read_unsigned (fun _ => "1000")
           1000 1000 1000 1000 1000 1000 1000 _ 1000
           Hread Hread Hread Hread Hread Hread Hread Hfwd eq_refl).
  lia.
Defined.

Lemma inertia_from_area_of_circle_witness :
  ~ np_pi (Irrational := rational_routines) == 0 /\
  exists A I_area I_radius,
    area_from_radius (H1 := rational_routines) 2 = Ok A /\
    moment_of_inertia_from_area (H1 := rational_routines) A = Ok I_area /\
    moment_of_inertia_from_radius (H1 := rational_routines) 2 = Ok I_radius /\
    I_area == I_radius.
Proof.
  assert (Hpi : ~ np_pi (Irrational := rational_routines) == 0) by discriminate.
  split; [exact Hpi|].
  exact (inertia_from_area_of_circle (H := rational_routines) 2 Hpi).
Defined.

End WorkedMore.
